(** * denosim: the promise-based simulation kernel and its store

    Shallow embedding of [src/model.ts] (event and simulation records),
    [src/simulation-p.ts] (initializeSimulation, createEvent, scheduleEvent,
    runSimulation, handleEvent) and [src/store.ts] (createStore with put and
    get), followed by a model of the generator-based [src/resources.ts]
    store, of which the repository tree only holds the tests and callers.

    Conventions
    - [number] is [Z]: every instant used by the tests and the examples is a
      whole number, on which [<], [>=] and the sign of a difference are what
      the JavaScript operators compute.  NaN and the infinities are left out.
    - an array is a [list]; [push] appends at the end, [shift] removes the
      head, [pop] removes the last element.
    - a function stored in a record (the process attached to an event) is a
      name, resolved in an environment of process bodies. *)

From Stdlib Require Import ZArith List Bool String DecimalString DecimalNat Lia Sorted
  Permutation.
Import ListNotations.
Open Scope Z_scope.

(** ** Arrays *)

Module Array.
Section Array.
Context {A : Type}.

(** [Array.prototype.pop] as an expression: the last element, if any. *)
Fixpoint pop (l : list A) : option A :=
  match l with
  | [] => None
  | [x] => Some x
  | _ :: rest => pop rest
  end.

(** A write through the reference returned by [filter(p).pop()]: the
    object is the last one of [l] that satisfies [p]; [f] is the write. *)
Fixpoint writeLast (p : A -> bool) (f : A -> A) (l : list A) : list A :=
  match l with
  | [] => []
  | x :: rest =>
      if existsb p rest then x :: writeLast p f rest
      else if p x then f x :: rest
      else x :: rest
  end.

(** [Array.prototype.sort(cmp)].  The sort is stable; [cmp a b > 0] places
    [a] after [b].  [place x l] puts [x], which stood before every element
    of the sorted [l], at the first position the comparator allows. *)
Fixpoint place (cmp : A -> A -> Z) (x : A) (l : list A) : list A :=
  match l with
  | [] => [x]
  | y :: rest => if 0 <? cmp x y then y :: place cmp x rest else x :: y :: rest
  end.

Fixpoint sort (cmp : A -> A -> Z) (l : list A) : list A :=
  match l with
  | [] => []
  | x :: rest => place cmp x (sort cmp rest)
  end.
End Array.
End Array.

(** ** model.ts *)

Module Model.

Definition number := Z.

Inductive EventState := Fired | Scheduled | Pending | Completed | Terminated.

Definition EventState_eqb (a b : EventState) : bool :=
  match a, b with
  | Fired, Fired | Scheduled, Scheduled | Pending, Pending
  | Completed, Completed | Terminated, Terminated => true
  | _, _ => false
  end.

(** The [callback] field.  [PromiseResolve] is the default that
    [createEvent] stores when no process is given; [Process n] names a
    process body of the caller. *)
Inductive Callback := PromiseResolve | Process (name : nat).

Record PromiseEvent (T : Type) := mkEvent {
  id : string;
  status : EventState;
  firedAt : number;
  scheduledAt : number;
  finishedAt : option number;
  item : option T;
  callback : Callback
}.

Record SimulationStats := mkStats { duration : number }.

(** [terminate] and [termination] are the two ends of one promise:
    [termination] is [None] while it is pending and [Some stats] once
    [terminate stats] has been called. *)
Record Simulation (T : Type) := mkSimulation {
  currentTime : number;
  events : list (PromiseEvent T);
  termination : option SimulationStats
}.

Arguments mkEvent {T}.
Arguments id {T}.
Arguments status {T}.
Arguments firedAt {T}.
Arguments scheduledAt {T}.
Arguments finishedAt {T}.
Arguments item {T}.
Arguments callback {T}.
Arguments mkSimulation {T}.
Arguments currentTime {T}.
Arguments events {T}.
Arguments termination {T}.

Inductive Error :=
| RangeError (eventId : string) (scheduledAt currentTime : number)
| TypeError.

End Model.
Import Model.

(** ** Promises

  A promise is described by the way it settles.  The reactions attached
  with [then] run in the order in which their promises settle (the job
  queue is first in, first out), so the instant of the settlement
  decides every race.  [Unsettled] is a promise that stays pending. *)

Module Promise.

Inductive t (A : Type) :=
| Unsettled
| Fulfilled (instant : nat) (value : A)
| Rejected (instant : nat) (reason : Error).
Arguments Unsettled {A}.
Arguments Fulfilled {A}.
Arguments Rejected {A}.

Definition settledAt {A} (p : t A) : option nat :=
  match p with
  | Unsettled => None
  | Fulfilled i _ | Rejected i _ => Some i
  end.

(** [p.then(onFulfilled)]; the handler receives the instant at which it
    runs, to read the state of that moment. *)
Definition then_ {A B} (p : t A) (onFulfilled : nat -> A -> B) : t B :=
  match p with
  | Unsettled => Unsettled
  | Fulfilled i v => Fulfilled i (onFulfilled i v)
  | Rejected i e => Rejected i e
  end.

(** [p] as a reaction attached to it during pass [calledAt] meets it.  The
    loop of [runSimulation] is synchronous: a promise settles during a
    pass only by what the process body of that pass runs, and the job of a
    reaction is queued when the promise settles or, for a promise settled
    by then, when the reaction is attached. *)
Definition seenAt {A} (calledAt : nat) (p : t A) : t A :=
  match p with
  | Unsettled => Unsettled
  | Fulfilled i v => Fulfilled (Nat.max i calledAt) v
  | Rejected i e => Rejected (Nat.max i calledAt) e
  end.

(** [Promise.race([p, q])]: the first to settle; [p], listed first, when
    neither settled before the other. *)
Definition race {A} (p q : t A) : t A :=
  match settledAt p, settledAt q with
  | _, None => p
  | None, Some _ => q
  | Some n, Some m => if (n <=? m)%nat then p else q
  end.

End Promise.

(** ** simulation-p.ts *)

Module SimulationP.
Section SimulationP.
Context {T : Type}.

Definition initializeSimulation : Simulation T :=
  {| currentTime := 0; events := []; termination := None |}.

(** [sim.terminate(stats)]: a promise is resolved once. *)
Definition terminate (sim : Simulation T) (stats : SimulationStats) : Simulation T :=
  match termination sim with
  | Some _ => sim
  | None =>
      {| currentTime := currentTime sim; events := events sim;
         termination := Some stats |}
  end.

(** [++lastId + ''], with the counter [lastId] passed along. *)
Definition generateId (lastId : nat) : nat * string :=
  (S lastId, NilEmpty.string_of_uint (Nat.to_uint (S lastId))).

Definition createEvent (lastId : nat) (sim : Simulation T) (scheduledAt : number)
    (callback : option Callback) (item : option T) : nat * PromiseEvent T :=
  let (lastId', newId) := generateId lastId in
  (lastId',
   {| id := newId;
      status := Fired;
      firedAt := currentTime sim;
      scheduledAt := scheduledAt;
      finishedAt := None;
      item := item;
      callback := match callback with Some c => c | None => PromiseResolve end |}).

(** [{ ...event, status: s }], and the write [event.status = s]. *)
Definition withStatus (s : EventState) (event : PromiseEvent T) : PromiseEvent T :=
  {| id := id event; status := s; firedAt := firedAt event;
     scheduledAt := Model.scheduledAt event; finishedAt := finishedAt event;
     item := item event; callback := callback event |}.

(** The comparator of [scheduleEvent]: [(a, b) => b.scheduledAt - a.scheduledAt]. *)
Definition latestFirst (a b : PromiseEvent T) : Z :=
  Model.scheduledAt b - Model.scheduledAt a.

(** Throws the [RangeError] or returns the new array; [sim] is only read. *)
Definition scheduleEvent (sim : Simulation T) (event : PromiseEvent T)
    : Error + list (PromiseEvent T) :=
  if Model.scheduledAt event <? currentTime sim then
    inl (RangeError (id event) (Model.scheduledAt event) (currentTime sim))
  else
    inr (Array.sort latestFirst (events sim ++ [withStatus Scheduled event])).

(** The statement [sim.events = scheduleEvent(sim, event)] of the tests
    and of a process that admits an event, run on [sim]: the simulation
    after it and the error thrown, if any.  The assignment is not reached
    when the call throws. *)
Definition admitEvent (sim : Simulation T) (event : PromiseEvent T)
    : Simulation T * option Error :=
  match scheduleEvent sim event with
  | inl err => (sim, Some err)
  | inr queue =>
      ({| currentTime := currentTime sim; events := queue;
          termination := termination sim |}, None)
  end.

(** *** Processes

    A process is a caller's function [(sim, event) => Promise<T>].  What
    the kernel can see of one call is gathered in a [Turn]: the events the
    body admits with [sim.events = scheduleEvent(sim, e)] before it
    returns, whether the body is an [async] function (a throw then rejects
    the returned promise instead of leaving the call), and the promise it
    returns.  Instants count the events handled so far: a promise settled
    while the [n]-th event (from 0) is handled settles at instant [n], and
    one settled once the run loop has returned settles at an instant that
    is at least the number of events handled. *)
Record Turn := mkTurn {
  admits : list (PromiseEvent T);
  async : bool;
  returns : Promise.t T
}.

Variable process : nat -> Simulation T -> PromiseEvent T -> Turn.

(** The admissions of a body, in order, up to the first that throws.
    Returns the simulation, the events admitted and the error thrown. *)
Fixpoint admitAll (sim : Simulation T) (es : list (PromiseEvent T))
    : Simulation T * list (PromiseEvent T) * option Error :=
  match es with
  | [] => (sim, [], None)
  | e :: rest =>
      match admitEvent sim e with
      | (sim', Some err) => (sim', [], Some err)
      | (sim', None) =>
          let '(sim'', done, err) := admitAll sim' rest in
          (sim'', e :: done, err)
      end
  end.

(** [event.callback(sim, event)].  The default callback [Promise.resolve]
    is called with the event as its receiver, which is no constructor. *)
Definition call (instant : nat) (sim : Simulation T) (event : PromiseEvent T)
    : Simulation T * list (PromiseEvent T) * (Error + Promise.t T) :=
  match callback event with
  | PromiseResolve => (sim, [], inl TypeError)
  | Process name =>
      let turn := process name sim event in
      let '(sim', done, failure) := admitAll sim (admits turn) in
      match failure with
      | None => (sim', done, inr (returns turn))
      | Some err =>
          if async turn then (sim', done, inr (Promise.Rejected instant err))
          else (sim', done, inl err)
      end
  end.

(** [{ ...event, finishedAt: sim.currentTime, status: EventState.Terminated }] *)
Definition terminated (now : number) (event : PromiseEvent T) : PromiseEvent T :=
  {| id := id event; status := Terminated; firedAt := firedAt event;
     scheduledAt := Model.scheduledAt event; finishedAt := Some now;
     item := item event; callback := callback event |}.

(** [{ ...event, item, finishedAt: sim.currentTime, status: EventState.Completed }] *)
Definition completed (now : number) (result : T) (event : PromiseEvent T)
    : PromiseEvent T :=
  {| id := id event; status := Completed; firedAt := firedAt event;
     scheduledAt := Model.scheduledAt event; finishedAt := Some now;
     item := Some result; callback := callback event |}.

(** The promise that [handleEvent] builds.  [called] is the promise that
    [event.callback(sim, event)] returned and [now i] is [sim.currentTime]
    as a reaction run at instant [i] reads it. *)
Definition handleEvent (now : nat -> number) (event : PromiseEvent T)
    (simulationProcess : Promise.t SimulationStats) (called : Promise.t T)
    : Promise.t (PromiseEvent T) :=
  Promise.race
    (Promise.then_ simulationProcess (fun i _ => terminated (now i) event))
    (Promise.then_ called (fun i result => completed (now i) result event)).

(** *** The run loop *)

(** The filter of [runSimulation]. *)
Definition todo (sim : Simulation T) (event : PromiseEvent T) : bool :=
  (currentTime sim <=? Model.scheduledAt event)
  && EventState_eqb (status event) Scheduled.

(** One pass of the loop body, as the run records it. *)
Record Iteration := mkIteration {
  dispatched : PromiseEvent T;      (* the event given to handleEvent *)
  clock : number;                   (* sim.currentTime during the pass *)
  admitted : list (PromiseEvent T); (* what the process admitted *)
  called : Error + Promise.t T      (* what the call of the process gave *)
}.

(** [None] is the [break]. *)
Definition iteration (instant : nat) (sim : Simulation T)
    : option (Iteration * Simulation T) :=
  let eventsTodo := filter (todo sim) (events sim) in
  match Array.pop eventsTodo with
  | None => None
  | Some event =>
      let sim1 :=
        {| currentTime := Model.scheduledAt event;
           events := Array.writeLast (todo sim) (withStatus Pending) (events sim);
           termination := termination sim |} in
      let event1 := withStatus Pending event in
      let '(sim2, done, result) := call instant sim1 event1 in
      Some ({| dispatched := event1; clock := currentTime sim1;
               admitted := done; called := result |}, sim2)
  end.

(** How the loop was left: by its [break], by a throw of [handleEvent], or,
    in this model only, with passes still to run when the fuel is spent. *)
Inductive Exit := Break | Throw (e : Error) | OutOfFuel.

(** [while (true) { ... }]: a throw of [handleEvent] leaves the loop. *)
Fixpoint loop (fuel : nat) (instant : nat) (sim : Simulation T)
    : list Iteration * Simulation T * Exit :=
  match fuel with
  | O => ([], sim, OutOfFuel)
  | S fuel' =>
      match iteration instant sim with
      | None => ([], sim, Break)
      | Some (it, sim') =>
          match called it with
          | inl err => ([it], sim', Throw err)
          | inr _ =>
              let '(its, sim'', exit) := loop fuel' (S instant) sim' in
              (it :: its, sim'', exit)
          end
      end
  end.

(** [existingEvent => existingEvent.id === newEvent.id ? newEvent : existingEvent] *)
Definition replaceEvent (newEvent : PromiseEvent T) (events : list (PromiseEvent T))
    : list (PromiseEvent T) :=
  map (fun existingEvent =>
         if String.eqb (id existingEvent) (id newEvent) then newEvent
         else existingEvent) events.

(** The promise [sim.termination] as the handlers of a run meet it:
    resolved before the run, resolved by the run when the loop breaks, or
    left pending when [handleEvent] threw. *)
Definition simulationProcess (before : option SimulationStats) (exit : Exit)
    (handled : nat) (stats : SimulationStats) : Promise.t SimulationStats :=
  match before with
  | Some earlier => Promise.Fulfilled 0 earlier
  | None =>
      match exit with
      | Break => Promise.Fulfilled handled stats
      | _ => Promise.Unsettled
      end
  end.

(** The promises pushed on [eventPromises], before their [then]. *)
Fixpoint handles (now : number) (termination : Promise.t SimulationStats)
    (its : list Iteration) : list (Promise.t (PromiseEvent T)) :=
  match its with
  | [] => []
  | it :: rest =>
      match called it with
      | inl _ => handles now termination rest
      | inr p =>
          handleEvent (fun _ => now) (dispatched it) termination p
          :: handles now termination rest
      end
  end.

Fixpoint fulfilments {A} (ps : list (Promise.t A)) : list (nat * A) :=
  match ps with
  | [] => []
  | Promise.Fulfilled i v :: rest => (i, v) :: fulfilments rest
  | _ :: rest => fulfilments rest
  end.

Definition earliestFirst {A} (a b : nat * A) : Z :=
  Z.of_nat (fst a) - Z.of_nat (fst b).

(** The reactions [newEvent => { sim.events = sim.events.map(...) }], run
    in the order in which the handles settle. *)
Definition settle (hs : list (Promise.t (PromiseEvent T)))
    (events : list (PromiseEvent T)) : list (PromiseEvent T) :=
  fold_left (fun evs h => replaceEvent (snd h) evs)
            (Array.sort earliestFirst (fulfilments hs)) events.

Record Run := mkRun {
  trace : list Iteration;
  exit : Exit;
  stats : option SimulationStats;   (* what the returned promise resolves with *)
  final : Simulation T   (* the simulation once every event promise settled *)
}.

(** [elapsed] is [end - start], the two readings of [performance.now()]. *)
Definition runSimulation (fuel : nat) (elapsed : number) (sim : Simulation T) : Run :=
  let '(its, sim1, exit) := loop fuel 0 sim in
  let stats := {| duration := elapsed |} in
  let sim2 := match exit with Break => terminate sim1 stats | _ => sim1 end in
  let termination :=
    simulationProcess (Model.termination sim) exit (List.length its) stats in
  {| trace := its;
     exit := exit;
     stats := Model.termination sim2;
     final :=
       {| currentTime := currentTime sim2;
          events := settle (handles (currentTime sim2) termination its) (events sim2);
          termination := Model.termination sim2 |} |}.

End SimulationP.
Arguments Turn : clear implicits.
Arguments Iteration : clear implicits.
Arguments Run : clear implicits.
End SimulationP.

(** ** store.ts *)

Module Store.

(** The test [if (pendingItem)] of [get] is JavaScript's conversion of a
    value to a boolean: [undefined], [null], [false], [0] and the empty
    string are falsy. *)
Class ToBoolean (T : Type) := truthy : T -> bool.

#[export] Instance string_ToBoolean : ToBoolean string :=
  fun s => match s with EmptyString => false | _ => true end.
#[export] Instance number_ToBoolean : ToBoolean Z :=
  fun n => negb (n =? 0).
#[export] Instance boolean_ToBoolean : ToBoolean bool :=
  fun b => b.

Section Store.
Context {T : Type} `{ToBoolean T}.

(** A [Request<T>] is the [resolve] function of the promise that a parked
    [get] returned; promises made by [get] are numbered as they are made. *)
Definition Request := nat.

Record StoreState := mkState {
  id : string;
  items : list T;
  queue : list Request
}.

(** The closure of [createStore]: its [state], the number of promises
    [get] has made, and the calls of requests so far ([request(item)]
    resolves promise [request] with [item]). *)
Record Store := mkStore {
  state : StoreState;
  made : nat;
  resolved : list (Request * T)
}.

(** The promise an action returns: already resolved with an item, or the
    pending promise of the given number. *)
Inductive Answer := Resolved (item : T) | Waiting (request : Request).

(** [uuid] is the draw of [crypto.randomUUID()]. *)
Definition createStore (uuid : string) (initialItems : list T) : Store :=
  {| state := {| id := uuid; items := initialItems; queue := [] |};
     made := 0%nat;
     resolved := [] |}.

Definition put (item : T) (store : Store) : Store * Answer :=
  match queue (state store) with
  | pendingRequest :: waiting =>
      ({| state := {| id := id (state store); items := items (state store);
                      queue := waiting |};
          made := made store;
          resolved := resolved store ++ [(pendingRequest, item)] |},
       Resolved item)
  | [] =>
      ({| state := {| id := id (state store);
                      items := items (state store) ++ [item];
                      queue := [] |};
          made := made store;
          resolved := resolved store |},
       Resolved item)
  end.

(** [new Promise(resolve => { state.queue.push(resolve); })] *)
Definition park (remaining : list T) (store : Store) : Store * Answer :=
  ({| state := {| id := id (state store); items := remaining;
                  queue := queue (state store) ++ [made store] |};
      made := S (made store);
      resolved := resolved store |},
   Waiting (made store)).

Definition get (store : Store) : Store * Answer :=
  match items (state store) with
  | pendingItem :: remaining =>
      if truthy pendingItem then
        ({| state := {| id := id (state store); items := remaining;
                        queue := queue (state store) |};
            made := made store;
            resolved := resolved store |},
         Resolved pendingItem)
      else park remaining store
  | [] => park [] store
  end.

(** A sequence of calls on one store, with the promises they return. *)
Inductive Action := Put (item : T) | Get.

Definition act (a : Action) (store : Store) : Store * Answer :=
  match a with
  | Put item => put item store
  | Get => get store
  end.

Fixpoint play (actions : list Action) (store : Store) : Store * list Answer :=
  match actions with
  | [] => (store, [])
  | a :: rest =>
      let (store', answer) := act a store in
      let (store'', answers) := play rest store' in
      (store'', answer :: answers)
  end.

(** What the promise an action returned resolves with, as far as the calls
    made on the store so far tell. *)
Fixpoint delivery (request : Request) (calls : list (Request * T)) : option T :=
  match calls with
  | [] => None
  | (r, item) :: rest => if (r =? request)%nat then Some item else delivery request rest
  end.

Definition outcome (store : Store) (answer : Answer) : option T :=
  match answer with
  | Resolved item => Some item
  | Waiting request => delivery request (resolved store)
  end.

End Store.
Arguments StoreState : clear implicits.
Arguments Store : clear implicits.
Arguments Answer : clear implicits.
Arguments Action : clear implicits.
End Store.

(** ** resources.ts *)

Module Resources.
Section Resources.
Context {T : Type}.

(** A process is named by the id of its event. *)
Definition ProcessId := string.

(** Modelled from the spec: the entries of [putRequests] of the store of
    [src/resources.ts], a file that is not in the tree; section 3 gives an
    entry as (item, owning process, blocking flag). *)
Record PutRequest := mkPutRequest {
  item : T;
  owner : ProcessId;
  blocking : bool
}.

(** Modelled from the spec: the store of [src/resources.ts], with its two
    queues, oldest entry first (section 3). *)
Record Store := mkStore {
  putRequests : list PutRequest;
  getRequests : list ProcessId
}.

(** Modelled from the spec: a process of [src/resources.ts] resuming, the
    value of [currentTime] it resumes at, and the item it is handed. *)
Record Resumption := mkResumption {
  who : ProcessId;
  time : number;
  handed : option T
}.

(** Modelled from the spec: [createStore] of [src/resources.ts]. *)
Definition createStore : Store :=
  {| putRequests := []; getRequests := [] |}.

(** Modelled from the spec: [put(sim, event, store, item, blocking)] of
    [src/resources.ts] (section 4.4).  With a waiting consumer, the oldest
    one is handed the item and both processes resume now; otherwise the
    entry is queued and the producer resumes now unless it is blocking. *)
Definition put (now : number) (producer : ProcessId) (store : Store) (x : T)
    (isBlocking : bool) : Store * list Resumption :=
  match getRequests store with
  | consumer :: waiting =>
      ({| putRequests := putRequests store; getRequests := waiting |},
       [ {| who := consumer; time := now; handed := Some x |};
         {| who := producer; time := now; handed := None |} ])
  | [] =>
      ({| putRequests :=
            putRequests store
            ++ [{| item := x; owner := producer; blocking := isBlocking |}];
          getRequests := [] |},
       if isBlocking then []
       else [ {| who := producer; time := now; handed := None |} ])
  end.

(** Modelled from the spec: [get(sim, event, store)] of
    [src/resources.ts] (section 4.4).  With a queued deposit, the oldest
    entry is popped, its item handed to the consumer, which resumes now,
    and so does the producer of the entry if it was parked in blocking
    mode; otherwise the consumer is queued and parks. *)
Definition get (now : number) (consumer : ProcessId) (store : Store)
    : Store * list Resumption :=
  match putRequests store with
  | entry :: queued =>
      ({| putRequests := queued; getRequests := getRequests store |},
       {| who := consumer; time := now; handed := Some (item entry) |}
       :: (if blocking entry
           then [ {| who := owner entry; time := now; handed := None |} ]
           else []))
  | [] =>
      ({| putRequests := []; getRequests := getRequests store ++ [consumer] |},
       [])
  end.

(** Modelled from the spec: the store operations of the processes of a
    run, each with the value of [currentTime] of the turn that issues it. *)
Inductive Operation :=
| Deposit (now : number) (producer : ProcessId) (x : T) (isBlocking : bool)
| Request (now : number) (consumer : ProcessId).

Definition operate (op : Operation) (store : Store) : Store * list Resumption :=
  match op with
  | Deposit now producer x isBlocking => put now producer store x isBlocking
  | Request now consumer => get now consumer store
  end.

Fixpoint operateAll (ops : list Operation) (store : Store)
    : Store * list Resumption :=
  match ops with
  | [] => (store, [])
  | op :: rest =>
      let (store', woken) := operate op store in
      let (store'', later) := operateAll rest store' in
      (store'', woken ++ later)
  end.

End Resources.
Arguments PutRequest : clear implicits.
Arguments Store : clear implicits.
Arguments Resumption : clear implicits.
Arguments Operation : clear implicits.
End Resources.

(** * Vocabulary of the properties *)

Section ArrayVocabulary.
Context {A : Type}.
Variable key : A -> Z.

(** Larger keys first, the order [scheduleEvent] asks for. *)
Definition largestFirst (a b : A) : Z := key b - key a.

Definition descending : list A -> Prop :=
  StronglySorted (fun a b => key b <= key a).

(** The elements of one key, in their order. *)
Definition keyed (k : Z) (l : list A) : list A :=
  filter (fun a => key a =? k) l.

End ArrayVocabulary.

Section RunVocabulary.
Context {T : Type}.
Import SimulationP.

Definition dueAt (t : number) (event : PromiseEvent T) : bool :=
  scheduledAt event =? t.

Definition latestFirstSorted : list (PromiseEvent T) -> Prop :=
  StronglySorted (fun a b => scheduledAt b <= scheduledAt a).

(** The update that a list of new events makes of an event: the first new
    event with its id, if any. *)
Definition updateOf (updates : list (nat * PromiseEvent T)) (x : PromiseEvent T)
    : PromiseEvent T :=
  match find (fun h => String.eqb (id x) (id (snd h))) updates with
  | Some h => snd h
  | None => x
  end.

Definition idOf (h : nat * PromiseEvent T) : string := id (snd h).

(** A process is still parked when the loop stops if its promise did not
    settle while any of the [handled] events was handled. *)
Definition parked (handled : nat) (p : Promise.t T) : Prop :=
  match Promise.settledAt p with
  | None => True
  | Some n => (handled <= n)%nat
  end.

(** Events created one after the other on one simulation, the counter of
    ids passed from each call of [createEvent] to the next. *)
Fixpoint createAll (lastId : nat) (sim : Simulation T)
    (specs : list (number * option Callback * option T))
    : nat * list (PromiseEvent T) :=
  match specs with
  | [] => (lastId, [])
  | (due, callback, item) :: rest =>
      let (lastId', event) := createEvent lastId sim due callback item in
      let (lastId'', events) := createAll lastId' sim rest in
      (lastId'', event :: events)
  end.

(** A simulation as the calls of [scheduleEvent] leave it: the queue is
    latest first and no Scheduled event is due before the clock. *)
Definition wellQueued (sim : Simulation T) : Prop :=
  latestFirstSorted (events sim)
  /\ Forall (fun e => status e = Scheduled -> currentTime sim <= scheduledAt e)
            (events sim).

(** The rule of a pass, in terms of the admissions.  [admittedBefore] are
    the events accepted by [scheduleEvent] before the pass, in their order,
    and [dispatchedBefore] the ids of the events dispatched before it.  The
    pass dispatches an event that was admitted and not dispatched; every
    event admitted after it and due at the same time was dispatched
    already, and no event that still waits is due earlier. *)
Definition latestAdmittedFirst (admittedBefore : list (PromiseEvent T))
    (dispatchedBefore : list string) (it : Iteration T) : Prop :=
  exists pre x post,
    admittedBefore = pre ++ x :: post
    /\ id x = id (dispatched it)
    /\ scheduledAt x = clock it
    /\ ~ In (id x) dispatchedBefore
    /\ (forall y, In y post -> scheduledAt y = clock it ->
                  In (id y) dispatchedBefore)
    /\ (forall y, In y admittedBefore -> ~ In (id y) dispatchedBefore ->
                  clock it <= scheduledAt y).

(** The queue of a simulation as the record of the admissions [admitted]
    and of the dispatches [dispatchedIds]: it holds the admitted events,
    those due at one time in the order of their admission, and an event is
    Scheduled as long as it was not dispatched. *)
Definition tracks (sim : Simulation T) (admitted : list (PromiseEvent T))
    (dispatchedIds : list string) : Prop :=
  Permutation (map id (events sim)) (map id admitted)
  /\ (forall t, map id (filter (dueAt t) (events sim))
                = map id (filter (dueAt t) admitted))
  /\ (forall e, In e (events sim) ->
                (status e = Scheduled <-> ~ In (id e) dispatchedIds))
  /\ incl dispatchedIds (map id admitted).

(** The events of a queue that still wait for their dispatch. *)
Definition countScheduled (queue : list (PromiseEvent T)) : nat :=
  List.length (filter (fun e => EventState_eqb (status e) Scheduled) queue).

(** What the processes of a run scheduled, pass after pass. *)
Definition admittedIn (its : list (Iteration T)) : list (PromiseEvent T) :=
  flat_map admitted its.

(** The event that a pass leaves in the queue once every promise of the run
    settled: the event that [handleEvent] resolved with, or the dispatched
    event itself when [handleEvent] threw, rejected or stayed pending. *)
Definition settledAs (now : number) (termination : Promise.t SimulationStats)
    (it : Iteration T) : PromiseEvent T :=
  match called it with
  | inl _ => dispatched it
  | inr p =>
      match handleEvent (fun _ => now) (dispatched it) termination p with
      | Promise.Fulfilled _ newEvent => newEvent
      | _ => dispatched it
      end
  end.

End RunVocabulary.

Section StoreVocabulary.
Context {T : Type} `{Store.ToBoolean T}.
Import Store.

(** The two queues are balanced when at most one of them holds anything. *)
Definition balanced (store : Store T) : Prop :=
  items (state store) = [] \/ queue (state store) = [].

Definition allTruthy (store : Store T) : Prop :=
  Forall (fun x => truthy x = true) (items (state store)).

(** The number of deposits and of requests in a sequence of calls. *)
Definition putCount (actions : list (Action T)) : nat :=
  List.length (filter (fun a => match a with Put _ => true | Get => false end) actions).

Definition getCount (actions : list (Action T)) : nat :=
  List.length (filter (fun a => match a with Get => true | Put _ => false end) actions).

(** The calls whose item, if any, is truthy. *)
Definition truthyAction (a : Action T) : Prop :=
  match a with Put item => truthy item = true | Get => True end.

End StoreVocabulary.

Section ResourcesVocabulary.
Context {T : Type}.
Import Resources.

Definition isRequest (op : Operation T) : bool :=
  match op with Request _ _ => true | Deposit _ _ _ _ => false end.

Definition deposits (ops : list (Operation T)) : list (PutRequest T) :=
  flat_map (fun op =>
              match op with
              | Deposit _ producer x isBlocking =>
                  [{| item := x; owner := producer; blocking := isBlocking |}]
              | Request _ _ => []
              end) ops.

End ResourcesVocabulary.

Section Scenarios.
Import SimulationP.
Open Scope string_scope.

(** Two producers in the manner of the tests: the body returns the
    promise of [store.put], resolved at once, and admits nothing. *)
Definition producers (name : nat) (sim : Simulation string)
    (event : PromiseEvent string) : Turn string :=
  {| admits := []; async := false; returns := Promise.Fulfilled 0 "foobar" |}.

Definition firstAdmitted : PromiseEvent string :=
  snd (createEvent 0 initializeSimulation 0 (Some (Process 0)) None).

Definition secondAdmitted : PromiseEvent string :=
  snd (createEvent 1 initializeSimulation 0 (Some (Process 0)) None).

(** A consumer in the manner of the tests, on a store that nothing is
    put in: the body returns the promise of [store.get], which stays
    pending. *)
Definition consumers (name : nat) (sim : Simulation string)
    (event : PromiseEvent string) : Turn string :=
  {| admits := []; async := false; returns := Promise.Unsettled |}.

Definition parkedConsumer : PromiseEvent string :=
  snd (createEvent 0 initializeSimulation 10 (Some (Process 0)) None).

(** A process that schedules its successor one unit of time later while the
    clock is below 3 (process 0), and one that schedules an event one unit
    in the past, as an [async] function (process 1) or not (process 2). *)
Definition tickers (name : nat) (sim : Simulation string)
    (event : PromiseEvent string) : Turn string :=
  match name with
  | O =>
      {| admits :=
           if (currentTime sim <? 3)%Z
           then [snd (createEvent (Z.to_nat (currentTime sim) + 1) sim
                        (currentTime sim + 1) (Some (Process 0)) None)]
           else [];
         async := false;
         returns := Promise.Fulfilled 0 "tick" |}
  | S n =>
      {| admits := [snd (createEvent 100 sim (currentTime sim - 1)
                           (Some (Process 0)) None)];
         async := match n with O => true | _ => false end;
         returns := Promise.Fulfilled 0 "late" |}
  end.

Definition startWith (name : nat) (due : number) : Simulation string :=
  fst (admitEvent initializeSimulation
         (snd (createEvent 0 initializeSimulation due (Some (Process name)) None))).

Definition summary (run : Run string)
    : list (string * number * list string) * Exit
      * list (string * EventState * option number) :=
  (map (fun it => (id (dispatched it), clock it, map id (admitted it))) (trace run),
   exit run,
   map (fun e => (id e, status e, finishedAt e)) (events (final run))).

(** Two events due at 5, the second with a process that schedules, when it
    is dispatched, a third event due at the clock (process 1); the first
    and the third schedule nothing (process 0). *)
Definition spawners (name : nat) (sim : Simulation string)
    (event : PromiseEvent string) : Turn string :=
  {| admits :=
       match name with
       | O => []
       | S _ => [snd (createEvent 2 sim (currentTime sim) (Some (Process 0)) None)]
       end;
     async := false;
     returns := Promise.Fulfilled 0 "foobar" |}.

Definition firstDue5 : PromiseEvent string :=
  snd (createEvent 0 initializeSimulation 5 (Some (Process 0)) None).

Definition secondDue5 : PromiseEvent string :=
  snd (createEvent 1 initializeSimulation 5 (Some (Process 1)) None).

(** The simulation of the two producers, admitted in their order; the same
    simulation after an earlier run resolved its termination promise; and
    the pass that dispatches an event whose process returned [p]. *)
Definition twoProducers : Simulation string :=
  fst (fst (admitAll initializeSimulation [firstAdmitted; secondAdmitted])).

Definition terminatedSimulation : Simulation string :=
  {| currentTime := currentTime twoProducers; events := events twoProducers;
     termination := Some {| duration := 7 |} |}.

Definition passOf (event : PromiseEvent string) (p : Promise.t string)
    : Iteration string :=
  {| dispatched := withStatus Pending event; clock := scheduledAt event;
     admitted := []; called := inr p |}.

End Scenarios.

(** * Properties *)

(** ** Arrays: what a stable sort is *)

Section ArrayPermutation.
Context {A : Type}.
Variable cmp : A -> A -> Z.

Lemma place_perm x l : Permutation (Array.place cmp x l) (x :: l).
Proof.
  induction l as [|y l IH]; simpl; [reflexivity|].
  destruct (0 <? cmp x y); [|reflexivity].
  rewrite IH. apply perm_swap.
Qed.

Lemma sort_perm l : Permutation (Array.sort cmp l) l.
Proof.
  induction l as [|x l IH]; simpl; [reflexivity|].
  rewrite place_perm. now constructor.
Qed.

(** A sort that compares images commutes with the map. *)
Lemma sort_map {B} (g : B -> A) (cmp' : B -> B -> Z) l :
  (forall a b, cmp (g a) (g b) = cmp' a b) ->
  Array.sort cmp (map g l) = map g (Array.sort cmp' l).
Proof.
  intros Hg. induction l as [|x l IH]; simpl; [reflexivity|].
  rewrite IH. generalize (Array.sort cmp' l). intros s.
  induction s as [|y s IHs]; simpl; [reflexivity|].
  rewrite Hg. destruct (0 <? cmp' x y); simpl; [now rewrite IHs|reflexivity].
Qed.

End ArrayPermutation.

Section ArrayFacts.
Context {A : Type}.
Variable key : A -> Z.


Lemma place_descending x l :
  descending key l -> descending key (Array.place (largestFirst key) x l).
Proof.
  unfold descending, largestFirst. induction l as [|y l IH]; simpl; intros Hs.
  - repeat constructor.
  - inversion Hs as [|? ? Hl Hy]; subst.
    destruct (0 <? key y - key x) eqn:E.
    + apply Z.ltb_lt in E. constructor; [now apply IH|].
      rewrite (Forall_forall (fun b => key b <= key y)). intros b Hb.
      apply (Permutation_in _ (place_perm (largestFirst key) x l)) in Hb.
      destruct Hb as [<-|Hb].
      * lia.
      * rewrite Forall_forall in Hy. now apply Hy.
    + apply Z.ltb_ge in E. constructor; [assumption|].
      constructor; [lia|].
      rewrite Forall_forall in Hy |- *. intros b Hb. specialize (Hy b Hb). lia.
Qed.

Lemma sort_descending l : descending key (Array.sort (largestFirst key) l).
Proof.
  induction l as [|x l IH]; simpl; [constructor|now apply place_descending].
Qed.

Lemma place_keyed k x l :
  keyed key k (Array.place (largestFirst key) x l) = keyed key k (x :: l).
Proof.
  unfold keyed, largestFirst. induction l as [|y l IH]; simpl; [reflexivity|].
  destruct (0 <? key y - key x) eqn:E; [|reflexivity].
  apply Z.ltb_lt in E. simpl. simpl in IH. rewrite IH.
  destruct (key x =? k) eqn:Ex, (key y =? k) eqn:Ey; try reflexivity.
  apply Z.eqb_eq in Ex, Ey. lia.
Qed.

(** Stability: elements of equal key keep their order. *)
Lemma sort_keyed k l :
  keyed key k (Array.sort (largestFirst key) l) = keyed key k l.
Proof.
  induction l as [|x l IH]; simpl; [reflexivity|].
  rewrite place_keyed. unfold keyed in *. simpl. now rewrite IH.
Qed.

Lemma keyed_In k x l : In x (keyed key k l) <-> In x l /\ key x = k.
Proof.
  unfold keyed. rewrite filter_In. now rewrite Z.eqb_eq.
Qed.

(** A descending list is determined by its elements of each key, in
    their order: whatever stable algorithm the engine runs, [Array.sort] is its
    result. *)
Lemma stable_sort_unique l l' :
  descending key l -> descending key l' ->
  (forall k, keyed key k l = keyed key k l') -> l = l'.
Proof.
  unfold descending. revert l'. induction l as [|a l IH]; intros l' Hs Hs' Hk.
  - destruct l' as [|b l']; [reflexivity|].
    specialize (Hk (key b)). unfold keyed in Hk. simpl in Hk.
    rewrite Z.eqb_refl in Hk. discriminate.
  - destruct l' as [|b l'].
    + specialize (Hk (key a)). unfold keyed in Hk. simpl in Hk.
      rewrite Z.eqb_refl in Hk. discriminate.
    + inversion Hs as [|? ? Hl Ha]; subst. inversion Hs' as [|? ? Hl' Hb]; subst.
      assert (Hab : key a = key b).
      { assert (Ka : In a (b :: l')).
        { apply (keyed_In (key a)). rewrite <- Hk. apply keyed_In.
          split; [now left|reflexivity]. }
        assert (Kb : In b (a :: l)).
        { apply (keyed_In (key b)). rewrite Hk. apply keyed_In.
          split; [now left|reflexivity]. }
        rewrite Forall_forall in Ha, Hb.
        destruct Ka as [->|Ka]; [reflexivity|].
        destruct Kb as [->|Kb]; [reflexivity|].
        specialize (Ha _ Kb). specialize (Hb _ Ka). lia. }
      assert (a = b).
      { pose proof (Hk (key a)) as Ka. unfold keyed in Ka. simpl in Ka.
        rewrite <- Hab, Z.eqb_refl in Ka. congruence. }
      subst b. f_equal. apply IH; try assumption.
      intros k. specialize (Hk k). unfold keyed in *. simpl in Hk.
      destruct (key a =? k); congruence.
Qed.

Lemma sort_sorted l : descending key l -> Array.sort (largestFirst key) l = l.
Proof.
  intros Hs. apply stable_sort_unique; [apply sort_descending|assumption|].
  intros k. apply sort_keyed.
Qed.

(** Sorting after each [push] or once at the end is the same. *)
Lemma sort_push l x :
  Array.sort (largestFirst key) (Array.sort (largestFirst key) l ++ [x])
  = Array.sort (largestFirst key) (l ++ [x]).
Proof.
  apply stable_sort_unique; try apply sort_descending.
  intros k. rewrite !sort_keyed. unfold keyed. rewrite !filter_app.
  f_equal. apply sort_keyed.
Qed.

End ArrayFacts.

(** ** scheduleEvent and initializeSimulation *)

Section Admission.
Context {T : Type}.
Import SimulationP.

Lemma scheduleEvent_refuses (sim : Simulation T) (event : PromiseEvent T) :
  scheduledAt event < currentTime sim ->
  scheduleEvent sim event
  = inl (RangeError (id event) (scheduledAt event) (currentTime sim)).
Proof.
  intros Hlt. unfold scheduleEvent.
  apply Z.ltb_lt in Hlt. now rewrite Hlt.
Qed.

Lemma scheduleEvent_accepts (sim : Simulation T) (event : PromiseEvent T) :
  currentTime sim <= scheduledAt event ->
  scheduleEvent sim event
  = inr (Array.sort latestFirst (events sim ++ [withStatus Scheduled event])).
Proof.
  intros Hle. unfold scheduleEvent.
  apply Z.ltb_ge in Hle. now rewrite Hle.
Qed.

(** C3.  [scheduleEvent] throws its [RangeError], the causality violation,
    exactly when the event is due before [sim.currentTime].  The error is
    the result of the call itself, not the state of a promise, and the
    statement [sim.events = scheduleEvent(sim, event)] then leaves the
    simulation, and so its queue, as it was. *)
Theorem scheduleEvent_causality (sim : Simulation T) (event : PromiseEvent T) :
  ((exists err, scheduleEvent sim event = inl err)
   <-> scheduledAt event < currentTime sim)
  /\ (scheduledAt event < currentTime sim ->
      scheduleEvent sim event
      = inl (RangeError (id event) (scheduledAt event) (currentTime sim))
      /\ fst (admitEvent sim event) = sim
      /\ events (fst (admitEvent sim event)) = events sim).
Proof.
  split.
  - split.
    + intros [err Herr]. destruct (Z.lt_ge_cases (scheduledAt event) (currentTime sim))
        as [Hlt|Hge]; [assumption|].
      rewrite (scheduleEvent_accepts _ _ Hge) in Herr. discriminate.
    + intros Hlt. eexists. now apply scheduleEvent_refuses.
  - intros Hlt. pose proof (scheduleEvent_refuses _ _ Hlt) as E.
    unfold admitEvent. rewrite E. simpl. auto.
Qed.

(** C10.  A simulation made by [initializeSimulation] has its clock at 0
    and an empty queue, so [scheduleEvent] accepts any first event that is
    due at a non-negative time and queues it alone, as Scheduled. *)
Theorem initializeSimulation_fresh :
  currentTime (@initializeSimulation T) = 0
  /\ events (@initializeSimulation T) = []
  /\ forall event : PromiseEvent T,
       0 <= scheduledAt event ->
       scheduleEvent initializeSimulation event
       = inr [withStatus Scheduled event].
Proof.
  repeat split. intros event Hle.
  now rewrite scheduleEvent_accepts.
Qed.

End Admission.

(** ** handleEvent *)

Section HandleEvent.
Context {T : Type}.
Import SimulationP.

(** The handles of a run.  [runSimulation] gives [handleEvent] the
    termination promise resolved before the run (instant 0), resolved when
    the loop breaks (instant [handled]) or left pending, and the promise of
    a process called in pass [k] of the [handled] passes.  To read the two
    promises as the reactions attached in pass [k] meet them changes the
    instant at which [handleEvent] resolves, not the event it gives. *)
Lemma handleEvent_seenAt (now : number) (event : PromiseEvent T)
    (before : option SimulationStats) (ex : Exit) (handled k : nat)
    (stats : SimulationStats) (called : Promise.t T) (newEvent : PromiseEvent T) :
  (k < handled)%nat ->
  let termination := simulationProcess before ex handled stats in
  (exists i, handleEvent (fun _ => now) event termination called
             = Promise.Fulfilled i newEvent)
  <-> (exists j, handleEvent (fun _ => now) event
                   (Promise.seenAt k termination) (Promise.seenAt k called)
                 = Promise.Fulfilled j newEvent).
Proof.
  intros Hk. unfold handleEvent, Promise.race, simulationProcess.
  destruct before as [earlier|]; [|destruct ex]; destruct called as [|i v|i err];
    simpl;
    repeat match goal with
           | |- context [(?a <=? ?b)%nat] =>
               let E := fresh "E" in
               destruct (a <=? b)%nat eqn:E;
               [apply Nat.leb_le in E|apply Nat.leb_gt in E]
           end;
    try lia;
    (split; intros [j Hj]; try discriminate Hj;
     injection Hj as _ <-; eexists; reflexivity).
Qed.

(** C7, as the code has it.  [calledAt] is the pass in which [handleEvent]
    is called, [i] the instant at which the promise of the process is
    fulfilled with [result].  When the termination promise is still
    pending at the call and the promise of the process is fulfilled before
    the termination promise settles, [handleEvent] gives the event as
    Completed, with [finishedAt] the value of [sim.currentTime] read by
    the reaction and [item] the result.  When the termination promise is
    already resolved at the call, or is resolved after it and before the
    promise of the process is fulfilled, [handleEvent] gives the event as
    Terminated and keeps the item the event had.  (Nothing is said of two
    promises settled after the call by the same process body.) *)
Theorem handleEvent_outcome (now : nat -> number) (event : PromiseEvent T)
    (simulationProcess : Promise.t SimulationStats) (calledAt i : nat)
    (result : T) :
  let outcome :=
    handleEvent now event (Promise.seenAt calledAt simulationProcess)
      (Promise.seenAt calledAt (Promise.Fulfilled i result)) in
  (match Promise.settledAt simulationProcess with
   | None => True
   | Some n => (calledAt < n /\ i < n)%nat
   end ->
   exists newEvent,
     outcome = Promise.Fulfilled (Nat.max i calledAt) newEvent
     /\ newEvent = completed (now (Nat.max i calledAt)) result event
     /\ status newEvent = Completed
     /\ finishedAt newEvent = Some (now (Nat.max i calledAt))
     /\ item newEvent = Some result
     /\ id newEvent = id event)
  /\ (forall n stats,
        simulationProcess = Promise.Fulfilled n stats ->
        (n <= calledAt \/ n < i)%nat ->
        let newEvent := terminated (now (Nat.max n calledAt)) event in
        outcome = Promise.Fulfilled (Nat.max n calledAt) newEvent
        /\ status newEvent = Terminated
        /\ finishedAt newEvent = Some (now (Nat.max n calledAt))
        /\ item newEvent = item event
        /\ id newEvent = id event).
Proof.
  split.
  - intros Hfirst. exists (completed (now (Nat.max i calledAt)) result event).
    repeat split. unfold handleEvent, Promise.race.
    destruct simulationProcess as [|n stats|n err]; simpl in *; try reflexivity.
    + destruct (Nat.leb_spec (Nat.max n calledAt) (Nat.max i calledAt));
        [lia|reflexivity].
    + destruct (Nat.leb_spec (Nat.max n calledAt) (Nat.max i calledAt));
        [lia|reflexivity].
  - intros n stats -> Hle. repeat split.
    unfold handleEvent, Promise.race. simpl.
    destruct (Nat.leb_spec (Nat.max n calledAt) (Nat.max i calledAt));
      [reflexivity|lia].
Qed.

End HandleEvent.

(** ** The store of store.ts *)

Section StoreFacts.
Context {T : Type} `{Store.ToBoolean T}.
Import Store.

(** [put] hands the item to the oldest waiting request. *)
Lemma put_serves_oldest item request waiting (store : Store T) :
  queue (state store) = request :: waiting ->
  queue (state (fst (put item store))) = waiting
  /\ resolved (fst (put item store)) = resolved store ++ [(request, item)]
  /\ items (state (fst (put item store))) = items (state store).
Proof.
  intros E. unfold put. rewrite E. simpl. auto.
Qed.

(** [get] takes the oldest item when that item is truthy. *)
Lemma get_takes_oldest item remaining (store : Store T) :
  items (state store) = item :: remaining ->
  truthy item = true ->
  snd (get store) = Resolved item
  /\ items (state (fst (get store))) = remaining
  /\ queue (state (fst (get store))) = queue (state store).
Proof.
  intros E Ht. unfold get. rewrite E, Ht. simpl. auto.
Qed.

(** With truthy items only, one [put] then one [get] on a new store gives
    the item back. *)
Lemma put_get_truthy uuid (x : T) :
  truthy x = true ->
  snd (get (fst (put x (createStore uuid [])))) = Resolved x.
Proof.
  intros Ht. unfold get, put. simpl. now rewrite Ht.
Qed.

(** With truthy items only, the store stays balanced. *)
Lemma act_balanced (a : Action T) (store : Store T) :
  match a with Put item => truthy item = true | Get => True end ->
  balanced store /\ allTruthy store ->
  balanced (fst (act a store)) /\ allTruthy (fst (act a store)).
Proof.
  unfold balanced, allTruthy. intros Ha [Hb Ht].
  destruct store as [[uuid its q] n r]. simpl in *.
  destruct a as [item|]; simpl.
  - unfold put. simpl. destruct q as [|request waiting]; simpl.
    + split; [now right|]. apply Forall_app. split; [assumption|].
      now constructor.
    + destruct Hb as [-> |Hb]; [|discriminate]. split; [now left|constructor].
  - unfold get. simpl. destruct its as [|item remaining]; simpl.
    + split; [now left|constructor].
    + inversion Ht as [|? ? Hi Hr]; subst. rewrite Hi. simpl.
      destruct Hb as [Hb| ->]; [discriminate|]. split; [now right|assumption].
Qed.

Lemma play_balanced (actions : list (Action T)) (store : Store T) :
  Forall (fun a => match a with Put item => truthy item = true | Get => True end)
         actions ->
  balanced store /\ allTruthy store ->
  balanced (fst (play actions store)) /\ allTruthy (fst (play actions store)).
Proof.
  revert store. induction actions as [|a rest IH]; intros store Hall Hinv.
  - exact Hinv.
  - inversion Hall as [|? ? Ha Hrest]; subst. simpl.
    pose proof (act_balanced a store Ha Hinv) as Hstep.
    destruct (act a store) as [store' answer]. simpl in Hstep.
    specialize (IH store' Hrest Hstep).
    destruct (play rest store') as [store'' answers]. exact IH.
Qed.

Lemma play_app (xs ys : list (Action T)) (store : Store T) :
  play (xs ++ ys) store
  = (fst (play ys (fst (play xs store))),
     snd (play xs store) ++ snd (play ys (fst (play xs store)))).
Proof.
  revert store. induction xs as [|a xs IH]; intros store; simpl.
  - now destruct (play ys store).
  - destruct (act a store) as [store' answer]. rewrite IH.
    destruct (play xs store') as [s1 a1]. simpl. reflexivity.
Qed.

Lemma play_puts (xs : list T) (store : Store T) :
  queue (state store) = [] ->
  play (map Put xs) store
  = ({| state := {| id := id (state store);
                    items := items (state store) ++ xs; queue := [] |};
        made := made store; resolved := resolved store |},
     map Resolved xs).
Proof.
  revert store. induction xs as [|x xs IH]; intros [[uuid its q] n r] Hq;
    simpl in *; subst q.
  - now rewrite app_nil_r.
  - unfold put at 1. simpl. rewrite IH by reflexivity. simpl.
    now rewrite <- app_assoc.
Qed.

Lemma play_gets (m : nat) (store : Store T) :
  (m <= List.length (items (state store)))%nat ->
  allTruthy store ->
  play (repeat Get m) store
  = ({| state := {| id := id (state store);
                    items := skipn m (items (state store));
                    queue := queue (state store) |};
        made := made store; resolved := resolved store |},
     map Resolved (firstn m (items (state store)))).
Proof.
  unfold allTruthy. revert store.
  induction m as [|m IH]; intros [[uuid its q] n r] Hm Ht; simpl in *.
  - reflexivity.
  - destruct its as [|item remaining]; simpl in Hm; [lia|].
    inversion Ht as [|? ? Hi Hr]; subst.
    unfold get at 1. simpl. rewrite Hi.
    rewrite IH; simpl; [reflexivity|lia|assumption].
Qed.

(** With truthy items only: N deposits then M requests, M no more than N,
    hand the first M items to the requests in the order of the deposits
    and leave the other N - M items queued. *)
Lemma deposits_then_requests uuid (xs : list T) (m : nat) :
  Forall (fun x => truthy x = true) xs ->
  (m <= List.length xs)%nat ->
  snd (play (map Put xs ++ repeat Get m) (createStore uuid []))
  = map Resolved xs ++ map Resolved (firstn m xs)
  /\ items (state (fst (play (map Put xs ++ repeat Get m) (createStore uuid []))))
     = skipn m xs
  /\ List.length
       (items (state (fst (play (map Put xs ++ repeat Get m) (createStore uuid [])))))
     = (List.length xs - m)%nat
  /\ queue (state (fst (play (map Put xs ++ repeat Get m) (createStore uuid []))))
     = [].
Proof.
  intros Ht Hm. rewrite play_app, play_puts by reflexivity. simpl.
  rewrite play_gets; simpl; try assumption.
  repeat split. now rewrite length_skipn.
Qed.

End StoreFacts.

Section StoreOfStrings.
Import Store.
Open Scope string_scope.

(** The test "store should store" of the repository: [get], [put('foo')],
    [put('bar')], [get] resolve with foo, foo, bar and bar. *)
Example store_should_store :
  let run := play [Get; Put "foo"; Put "bar"; Get] (createStore "store" []) in
  map (outcome (fst run)) (snd run)
  = [Some "foo"; Some "foo"; Some "bar"; Some "bar"]
  /\ items (state (fst run)) = [] /\ queue (state (fst run)) = [].
Proof. vm_compute. repeat split. Qed.

(** C9, at the input that breaks it.  On a new store of strings,
    [put("")] then [get()]: the item is taken out of [items], fails the
    test [if (pendingItem)], and [get] returns a promise that waits in
    [queue]; no call resolved it, and the item is in neither queue. *)
Theorem put_get_empty_string :
  let afterPut := fst (put "" (createStore "store" [])) in
  let afterGet := get afterPut in
  items (state afterPut) = [""]
  /\ snd afterGet = Waiting 0%nat
  /\ snd afterGet <> Resolved ""
  /\ outcome (fst afterGet) (snd afterGet) = None
  /\ items (state (fst afterGet)) = []
  /\ queue (state (fst afterGet)) = [0%nat].
Proof.
  simpl. repeat split. discriminate.
Qed.

(** C5, at the input that breaks it.  [put("")], [put("a")], [get()]
    leave the item ["a"] queued and a request waiting, both at once. *)
Theorem store_unbalanced_after_falsy_item :
  let store := fst (play [Put ""; Put "a"; Get] (createStore "store" [])) in
  items (state store) = ["a"]
  /\ queue (state store) = [0%nat]
  /\ ~ balanced store.
Proof.
  simpl. repeat split. unfold balanced. simpl. intros [E|E]; discriminate.
Qed.

(** C4, at the input that breaks it.  Three deposits [""], ["a"], ["b"]
    then two requests: the first request drops [""] and waits, unserved
    at the end, and the second is handed ["a"], the second deposit. *)
Theorem requests_not_served_in_deposit_order :
  let run := play [Put ""; Put "a"; Put "b"; Get; Get] (createStore "store" []) in
  skipn 3 (snd run) = [Waiting 0%nat; Resolved "a"]
  /\ map (outcome (fst run)) (skipn 3 (snd run)) = [None; Some "a"]
  /\ map (outcome (fst run)) (skipn 3 (snd run)) <> [Some ""; Some "a"]
  /\ items (state (fst run)) = ["b"]
  /\ queue (state (fst run)) = [0%nat].
Proof.
  simpl. repeat split. discriminate.
Qed.

End StoreOfStrings.

(** ** The store of resources.ts *)

Section ResourcesFacts.
Context {T : Type}.
Import Resources.

Lemma skipn_push {A} (k : nat) (l : list A) (x : A) :
  (k <= List.length l)%nat -> skipn k (l ++ [x]) = skipn k l ++ [x].
Proof.
  intros Hk. rewrite skipn_app.
  replace (k - List.length l)%nat with 0%nat by lia. reflexivity.
Qed.

(** While no consumer waits, each request pops the oldest deposit and
    each deposit joins the end of the queue. *)
Lemma operateAll_queue (ops : list (Operation T)) (queued : list (PutRequest T)) :
  (List.length (filter isRequest ops) <= List.length queued)%nat ->
  fst (operateAll ops {| putRequests := queued; getRequests := [] |})
  = {| putRequests := skipn (List.length (filter isRequest ops)) queued ++ deposits ops;
       getRequests := [] |}.
Proof.
  revert queued. induction ops as [|op ops IH]; intros queued Hk; simpl in *.
  - now rewrite app_nil_r.
  - destruct op as [now producer x isBlocking|now consumer]; simpl in *.
    + unfold put. simpl.
      specialize (IH (queued ++ [{| item := x; owner := producer;
                                    blocking := isBlocking |}])).
      destruct (operateAll ops _) as [store later] eqn:E. simpl in *.
      rewrite IH by (rewrite length_app; simpl; lia).
      rewrite skipn_push by assumption. now rewrite <- app_assoc.
    + destruct queued as [|entry queued]; simpl in Hk; [lia|].
      unfold get. simpl. specialize (IH queued).
      destruct (operateAll ops _) as [store later] eqn:E. simpl in *.
      apply IH. lia.
Qed.

(** C2.  In a store where no consumer waits, a blocking deposit made at
    T1 resumes nobody; once the requests in between have taken the older
    deposits, the request made at T2 > T1 takes this deposit and resumes
    the consumer with the item and the producer, both at T2.  A deposit
    that is not blocking resumes its producer at T1, whatever follows, and
    the request that takes it later resumes the consumer alone. *)
Theorem deposit_resumption (older : list (PutRequest T))
    (between : list (Operation T)) (T1 T2 : number)
    (producer consumer : ProcessId) (x : T) :
  T1 < T2 ->
  List.length (filter isRequest between) = List.length older ->
  let store := {| putRequests := older; getRequests := [] |} in
  let matched isBlocking :=
    snd (operate (Request T2 consumer)
           (fst (operateAll (Deposit T1 producer x isBlocking :: between) store))) in
  snd (operate (Deposit T1 producer x true) store) = []
  /\ matched true
     = [ {| who := consumer; time := T2; handed := Some x |};
         {| who := producer; time := T2; handed := None |} ]
  /\ Forall (fun r => time r = T2 /\ time r <> T1) (matched true)
  /\ snd (operate (Deposit T1 producer x false) store)
     = [ {| who := producer; time := T1; handed := None |} ]
  /\ matched false = [ {| who := consumer; time := T2; handed := Some x |} ].
Proof.
  intros Hlt Hlen store matched.
  assert (Hq : forall isBlocking,
             fst (operateAll (Deposit T1 producer x isBlocking :: between) store)
             = {| putRequests :=
                    {| item := x; owner := producer; blocking := isBlocking |}
                    :: deposits between;
                  getRequests := [] |}).
  { intros isBlocking. simpl. unfold put. simpl.
    pose proof (operateAll_queue between
                  (older ++ [{| item := x; owner := producer;
                                blocking := isBlocking |}])) as Hq.
    destruct (operateAll between _) as [s later]. simpl in *.
    rewrite Hq by (rewrite length_app; simpl; lia).
    rewrite Hlen, skipn_app, skipn_all, Nat.sub_diag. reflexivity. }
  assert (Hb : matched true
               = [ {| who := consumer; time := T2; handed := Some x |};
                   {| who := producer; time := T2; handed := None |} ]).
  { unfold matched. rewrite Hq. reflexivity. }
  repeat split.
  - exact Hb.
  - rewrite Hb. repeat constructor; simpl; lia.
  - unfold matched. rewrite Hq. reflexivity.
Qed.

End ResourcesFacts.

Section ResourcesScenario.
Import Resources.
Open Scope string_scope.

(** The run of the test "blocking/non-blocking put operations": a
    blocking deposit at 30, a request at 40, a deposit at 50, a request at
    60.  The processes resume at 40, 40, 50 and 60, and both queues end
    empty. *)
Example blocking_scenario :
  operateAll [ Deposit 30 "e1" "foobar" true; Request 40 "e2";
               Deposit 50 "e3" "foobar" false; Request 60 "e4" ]
             createStore
  = ({| putRequests := []; getRequests := [] |},
     [ {| who := "e2"; time := 40; handed := Some "foobar" |};
       {| who := "e1"; time := 40; handed := None |};
       {| who := "e3"; time := 50; handed := None |};
       {| who := "e4"; time := 60; handed := Some "foobar" |} ]).
Proof. reflexivity. Qed.

End ResourcesScenario.

(** ** The run loop: clock and admissions *)

Section RunClock.
Context {T : Type}.
Variable process : nat -> Simulation T -> PromiseEvent T -> SimulationP.Turn T.
Import SimulationP.

Lemma admitEvent_clock (sim : Simulation T) (event : PromiseEvent T) :
  currentTime (fst (admitEvent sim event)) = currentTime sim
  /\ termination (fst (admitEvent sim event)) = termination sim
  /\ (snd (admitEvent sim event) = None -> currentTime sim <= scheduledAt event).
Proof.
  unfold admitEvent, scheduleEvent.
  destruct (scheduledAt event <? currentTime sim) eqn:E; simpl.
  - repeat split. discriminate.
  - apply Z.ltb_ge in E. auto.
Qed.

Lemma admitAll_clock (es : list (PromiseEvent T)) (sim : Simulation T) :
  currentTime (fst (fst (admitAll sim es))) = currentTime sim
  /\ termination (fst (fst (admitAll sim es))) = termination sim
  /\ Forall (fun e => currentTime sim <= scheduledAt e)
            (snd (fst (admitAll sim es))).
Proof.
  revert sim. induction es as [|e rest IH]; intros sim; simpl.
  - auto.
  - destruct (admitEvent_clock sim e) as (Hc & Ht & Hok).
    destruct (admitEvent sim e) as [sim' [err|]]; simpl in *.
    + auto.
    + specialize (IH sim'). destruct (admitAll sim' rest) as [[sim'' done] err].
      simpl in *. destruct IH as (IHc & IHt & IHd).
      repeat split; try congruence.
      constructor; [now apply Hok|]. now rewrite <- Hc.
Qed.

Lemma call_clock (instant : nat) (sim : Simulation T) (event : PromiseEvent T) :
  currentTime (fst (fst (call process instant sim event))) = currentTime sim
  /\ termination (fst (fst (call process instant sim event))) = termination sim
  /\ Forall (fun e => currentTime sim <= scheduledAt e)
            (snd (fst (call process instant sim event))).
Proof.
  unfold call. destruct (callback event) as [|name]; simpl; [auto|].
  pose proof (admitAll_clock (admits (process name sim event)) sim) as Ha.
  destruct (admitAll sim _) as [[sim' done] [err|]]; simpl in *.
  - now destruct (async _).
  - exact Ha.
Qed.

Lemma pop_In {A} (l : list A) (x : A) : Array.pop l = Some x -> In x l.
Proof.
  induction l as [|y l IH]; simpl; [discriminate|].
  destruct l as [|z l]; [intros [= ->]; now left|].
  intros E. right. now apply IH.
Qed.

Lemma todo_spec (sim : Simulation T) (event : PromiseEvent T) :
  todo sim event = true
  <-> currentTime sim <= scheduledAt event /\ status event = Scheduled.
Proof.
  unfold todo. rewrite andb_true_iff, Z.leb_le.
  destruct (status event); simpl; intuition congruence.
Qed.

(** One pass: the clock moves to the due time of the selected event, which
    is not before the clock; what the process admits is due no earlier. *)
Lemma iteration_clock (instant : nat) (sim sim' : Simulation T) (it : Iteration T) :
  iteration process instant sim = Some (it, sim') ->
  currentTime sim <= clock it
  /\ clock it = currentTime sim'
  /\ clock it = scheduledAt (dispatched it)
  /\ status (dispatched it) = Pending
  /\ termination sim' = termination sim
  /\ Forall (fun e => clock it <= scheduledAt e) (admitted it).
Proof.
  unfold iteration.
  destruct (Array.pop (filter (todo sim) (events sim))) as [event|] eqn:E;
    [|discriminate].
  apply pop_In, filter_In in E. destruct E as [_ E]. apply todo_spec in E.
  match goal with |- context [call process instant ?s ?e] =>
    pose proof (call_clock instant s e) as Hc;
    destruct (call process instant s e) as [[sim2 done] result] end.
  simpl in Hc. destruct Hc as (Hc & Ht & Hd).
  intros [= <- <-]. simpl. repeat split; try tauto; congruence.
Qed.

Lemma loop_clock (fuel instant : nat) (sim : Simulation T) :
  let '(its, sim', _) := loop process fuel instant sim in
  currentTime sim <= currentTime sim'
  /\ termination sim' = termination sim
  /\ StronglySorted Z.le (map clock its)
  /\ Forall (fun it => currentTime sim <= clock it <= currentTime sim'
                       /\ clock it = scheduledAt (dispatched it)
                       /\ status (dispatched it) = Pending
                       /\ Forall (fun e => clock it <= scheduledAt e) (admitted it))
            its.
Proof.
  revert instant sim. induction fuel as [|fuel IH]; intros instant sim; simpl.
  - repeat split; try constructor; lia.
  - destruct (iteration process instant sim) as [[it sim1]|] eqn:E.
    + apply iteration_clock in E. destruct E as (H1 & H2 & H3 & H4 & H5 & H6).
      destruct (called it) as [err|p].
      * simpl. repeat split; try (repeat constructor; fail); try lia; try congruence.
        constructor; [|constructor]. repeat split; try assumption; lia.
      * specialize (IH (S instant) sim1).
        destruct (loop process fuel (S instant) sim1) as [[its sim2] exit].
        destruct IH as (I1 & I2 & I3 & I4).
        repeat split; try lia; try congruence.
        -- simpl. constructor; [assumption|].
           rewrite Forall_map. revert I4. apply Forall_impl. intros it' Hit. lia.
        -- constructor; [repeat split; try assumption; lia|].
           revert I4. apply Forall_impl. intros it' Hit.
           repeat split; try tauto; lia.
    + repeat split; try constructor; lia.
Qed.

(** C8.  The clock starts at 0 and never moves back: a call of
    [scheduleEvent] leaves it alone and only accepts an event that is due
    at or after it; every pass of [runSimulation] moves it to the due time
    of the selected event, which is at or after it; and every event a
    process admits during a run is due at or after the clock of its pass. *)
Theorem currentTime_monotone :
  currentTime (@initializeSimulation T) = 0
  /\ (forall (sim : Simulation T) (event : PromiseEvent T),
        currentTime (fst (admitEvent sim event)) = currentTime sim
        /\ match snd (admitEvent sim event) with
           | None => currentTime sim <= scheduledAt event
           | Some _ => scheduledAt event < currentTime sim
                       /\ fst (admitEvent sim event) = sim
           end)
  /\ (forall (fuel : nat) (elapsed : number) (sim : Simulation T),
        let run := runSimulation process fuel elapsed sim in
        currentTime sim <= currentTime (final run)
        /\ StronglySorted Z.le (map clock (trace run))
        /\ Forall (fun it =>
                     currentTime sim <= clock it <= currentTime (final run)
                     /\ Forall (fun e => clock it <= scheduledAt e) (admitted it))
                  (trace run)).
Proof.
  split; [reflexivity|]. split.
  - intros sim event. split; [apply admitEvent_clock|].
    unfold admitEvent, scheduleEvent.
    destruct (scheduledAt event <? currentTime sim) eqn:E; simpl.
    + apply Z.ltb_lt in E. auto.
    + now apply Z.ltb_ge in E.
  - intros fuel elapsed sim. unfold runSimulation.
    pose proof (loop_clock fuel 0 sim) as Hl.
    destruct (loop process fuel 0 sim) as [[its sim1] exit].
    destruct Hl as (H1 & H2 & H3 & H4).
    assert (Hc : currentTime (match exit with
                              | Break => terminate sim1 {| duration := elapsed |}
                              | _ => sim1
                              end) = currentTime sim1).
    { destruct exit; try reflexivity. unfold terminate.
      now destruct (termination sim1). }
    simpl. rewrite Hc. repeat split; try assumption.
    revert H4. apply Forall_impl. intros it Hit. tauto.
Qed.

End RunClock.

(** ** The run loop: order of dispatch *)

Section RunOrder.
Context {T : Type}.
Variable process : nat -> Simulation T -> PromiseEvent T -> SimulationP.Turn T.
Import SimulationP.

Lemma latestFirst_push (l : list (PromiseEvent T)) x :
  Array.sort latestFirst (Array.sort latestFirst l ++ [x])
  = Array.sort latestFirst (l ++ [x]).
Proof. exact (sort_push scheduledAt l x). Qed.

Lemma latestFirst_sorted (l : list (PromiseEvent T)) :
  latestFirstSorted (Array.sort latestFirst l).
Proof. exact (sort_descending scheduledAt l). Qed.

Lemma latestFirst_stable t (l : list (PromiseEvent T)) :
  filter (dueAt t) (Array.sort latestFirst l) = filter (dueAt t) l.
Proof. exact (sort_keyed scheduledAt t l). Qed.

(** The queue after an admission: still latest first, the new event behind
    the queued events that are due at the same time. *)
Lemma scheduleEvent_queue (sim : Simulation T) (event : PromiseEvent T) queue :
  scheduleEvent sim event = inr queue ->
  latestFirstSorted queue
  /\ Permutation queue (withStatus Scheduled event :: events sim)
  /\ forall t, filter (dueAt t) queue
               = filter (dueAt t) (events sim)
                 ++ filter (dueAt t) [withStatus Scheduled event].
Proof.
  unfold scheduleEvent. destruct (scheduledAt event <? currentTime sim);
    [discriminate|]. intros [= <-]. split; [apply latestFirst_sorted|]. split.
  - rewrite sort_perm. rewrite Permutation_app_comm. reflexivity.
  - intros t. rewrite latestFirst_stable. apply filter_app.
Qed.

Lemma admitAll_batch (es : list (PromiseEvent T)) (sim : Simulation T) l :
  events sim = Array.sort latestFirst l ->
  Forall (fun e => currentTime sim <= scheduledAt e) es ->
  admitAll sim es
  = ({| currentTime := currentTime sim;
        events := Array.sort latestFirst (l ++ map (withStatus Scheduled) es);
        termination := termination sim |}, es, None).
Proof.
  revert sim l. induction es as [|e rest IH]; intros sim l Hq Hdue; simpl.
  - rewrite app_nil_r, <- Hq. now destruct sim.
  - inversion Hdue as [|? ? He Hrest]; subst.
    unfold admitEvent. rewrite (scheduleEvent_accepts _ _ He), Hq, latestFirst_push.
    rewrite (IH _ (l ++ [withStatus Scheduled e])); simpl; try assumption;
      try reflexivity.
    now rewrite <- app_assoc.
Qed.

Lemma pop_last {A} (l : list A) (x : A) : Array.pop (l ++ [x]) = Some x.
Proof.
  induction l as [|y l IH]; simpl; [reflexivity|].
  rewrite IH. destruct (l ++ [x]) eqn:E; [|reflexivity].
  now destruct l.
Qed.

Lemma existsb_none {A} (p : A -> bool) (l : list A) :
  Forall (fun x => p x = false) l -> existsb p l = false.
Proof.
  induction 1 as [|x l Hx Hl IH]; simpl; [reflexivity|]. now rewrite Hx, IH.
Qed.

Lemma filter_none {A} (p : A -> bool) (l : list A) :
  Forall (fun x => p x = false) l -> filter p l = [].
Proof.
  induction 1 as [|x l Hx Hl IH]; simpl; [reflexivity|]. now rewrite Hx.
Qed.

Lemma filter_all {A} (p : A -> bool) (l : list A) :
  Forall (fun x => p x = true) l -> filter p l = l.
Proof.
  induction 1 as [|x l Hx Hl IH]; simpl; [reflexivity|]. now rewrite Hx, IH.
Qed.

Lemma writeLast_split {A} (p : A -> bool) (f : A -> A) pre x post :
  p x = true -> Forall (fun y => p y = false) post ->
  Array.writeLast p f (pre ++ x :: post) = pre ++ f x :: post.
Proof.
  intros Hx Hpost. induction pre as [|y pre IH]; simpl.
  - now rewrite (existsb_none _ _ Hpost), Hx.
  - rewrite IH. rewrite existsb_app. simpl. rewrite Hx.
    now rewrite orb_true_r.
Qed.

Lemma sorted_snoc {A} (R : A -> A -> Prop) l x :
  StronglySorted R (l ++ [x]) ->
  StronglySorted R l /\ Forall (fun y => R y x) l.
Proof.
  induction l as [|y l IH]; simpl; intros Hs.
  - split; constructor.
  - inversion Hs as [|? ? Hl Hy]; subst. destruct (IH Hl) as [IH1 IH2].
    apply Forall_app in Hy. destruct Hy as [Hy1 Hy2].
    inversion Hy2; subst. split; constructor; assumption.
Qed.

Lemma pop_none {A} (l : list A) : Array.pop l = None -> l = [].
Proof.
  induction l as [|y l IH]; [reflexivity|]. simpl.
  destruct l as [|z l]; [discriminate|]. intros E. specialize (IH E). discriminate.
Qed.

Lemma filter_nil {A} (p : A -> bool) (l : list A) :
  filter p l = [] -> Forall (fun x => p x = false) l.
Proof.
  induction l as [|y l IH]; simpl; [constructor|].
  destruct (p y) eqn:E; [discriminate|]. intros F. constructor; auto.
Qed.

(** The element that [filter(p).pop()] returns, in its place. *)
Lemma pop_filter_split {A} (p : A -> bool) (l : list A) (x : A) :
  Array.pop (filter p l) = Some x ->
  exists pre post,
    l = pre ++ x :: post /\ p x = true /\ Forall (fun y => p y = false) post.
Proof.
  induction l as [|y l IH]; simpl; [discriminate|].
  destruct (Array.pop (filter p l)) as [z|] eqn:E.
  - intros Hx. assert (z = x) as ->.
    { destruct (p y); [|congruence]. simpl in Hx.
      destruct (filter p l); [discriminate|congruence]. }
    destruct (IH eq_refl) as (pre & post & -> & Hp & Hpost).
    exists (y :: pre), post. auto.
  - apply pop_none in E. rewrite E. destruct (p y) eqn:Hy; [|discriminate].
    simpl. intros [= ->]. exists [], l. repeat split; [assumption|].
    now apply filter_nil.
Qed.

Lemma descending_keys {A} (key : A -> Z) (l : list A) :
  descending key l <-> StronglySorted (fun a b => b <= a) (map key l).
Proof.
  unfold descending. induction l as [|x l IH]; simpl.
  - split; constructor.
  - split; intros Hs; inversion Hs as [|? ? Hl Hx]; subst; constructor;
      try (now apply IH).
    + now rewrite Forall_map.
    + now rewrite Forall_map in Hx.
Qed.

Lemma withStatus_sorted s pre (x : PromiseEvent T) post :
  latestFirstSorted (pre ++ x :: post) ->
  latestFirstSorted (pre ++ withStatus s x :: post).
Proof.
  unfold latestFirstSorted. intros Hs.
  apply (descending_keys scheduledAt). apply (descending_keys scheduledAt) in Hs.
  rewrite map_app in *. exact Hs.
Qed.

Lemma admitAll_sorted (es : list (PromiseEvent T)) (sim : Simulation T) :
  latestFirstSorted (events sim) ->
  latestFirstSorted (events (fst (fst (admitAll sim es)))).
Proof.
  revert sim. induction es as [|e rest IH]; intros sim Hs; simpl; [assumption|].
  unfold admitEvent. destruct (scheduleEvent sim e) as [err|queue] eqn:E; simpl.
  - assumption.
  - apply scheduleEvent_queue in E. destruct E as (Hq & _).
    match goal with |- context [admitAll ?s rest] =>
      specialize (IH s); destruct (admitAll s rest) as [[sim'' done] err] end.
    simpl in *. now apply IH.
Qed.

(** The selection of a pass.  The event taken is the last of the queue that
    is Scheduled and due: every other candidate stands before it.  In a
    queue that is latest first, as [scheduleEvent] leaves it, no candidate
    is due earlier, and the queue after the pass is latest first again. *)
Lemma iteration_selects instant (sim sim' : Simulation T) (it : Iteration T) :
  iteration process instant sim = Some (it, sim') ->
  exists pre event post,
    events sim = pre ++ event :: post
    /\ dispatched it = withStatus Pending event
    /\ todo sim event = true
    /\ Forall (fun e => todo sim e = false) post
    /\ (latestFirstSorted (events sim) ->
        Forall (fun e => scheduledAt event <= scheduledAt e) pre
        /\ latestFirstSorted (events sim')).
Proof.
  unfold iteration.
  destruct (Array.pop (filter (todo sim) (events sim))) as [event|] eqn:E;
    [|discriminate].
  destruct (pop_filter_split _ _ _ E) as (pre & post & Hq & Hp & Hpost).
  match goal with |- context [call process instant ?s ?e] =>
    assert (Hk : latestFirstSorted (events s) ->
                 latestFirstSorted (events (fst (fst (call process instant s e)))));
    [|destruct (call process instant s e) as [[sim2 done] result]] end.
  { intros Hs. unfold call. destruct (callback _) as [|name]; [assumption|].
    match goal with |- context [admitAll ?s ?l] =>
      pose proof (admitAll_sorted l s Hs) as Ha;
      destruct (admitAll s l) as [[sim3 done] [err|]] end; simpl in *;
      [|assumption].
    now destruct (async _). }
  simpl in Hk. intros [= <- <-]. exists pre, event, post. simpl.
  split; [assumption|]. split; [reflexivity|]. split; [assumption|].
  split; [assumption|]. intros Hs. split.
  - rewrite Hq in Hs. unfold latestFirstSorted in Hs.
    clear - Hs. induction pre as [|y pre IH]; simpl in *; [constructor|].
    inversion Hs as [|? ? Hl Hy]; subst. constructor; [|now apply IH].
    rewrite Forall_forall in Hy. apply Hy. apply in_or_app. right. now left.
  - apply Hk. rewrite Hq, (writeLast_split _ _ _ _ _ Hp Hpost).
    apply withStatus_sorted. now rewrite <- Hq.
Qed.

(** A queue whose Scheduled events all stand first, latest first and due,
    is emptied from its end when the processes schedule nothing. *)
Lemma loop_batch (pre : list (PromiseEvent T)) :
  (forall n s e, admits (process n s e) = []) ->
  forall post fuel instant sim,
    events sim = pre ++ post ->
    Forall (fun e => status e = Scheduled /\ currentTime sim <= scheduledAt e
                     /\ exists n, callback e = Process n) pre ->
    latestFirstSorted pre ->
    Forall (fun e => status e <> Scheduled) post ->
    (List.length pre < fuel)%nat ->
    let '(its, sim', exit) := loop process fuel instant sim in
    map dispatched its = rev (map (withStatus Pending) pre)
    /\ exit = Break
    /\ events sim' = map (withStatus Pending) pre ++ post
    /\ Forall (fun it => exists p, called it = inr p) its.
Proof.
  intros Hquiet. induction pre as [|e pre IH] using rev_ind;
    intros post fuel instant sim Hq Hpre Hsorted Hpost Hfuel;
    (destruct fuel as [|fuel]; [simpl in Hfuel; lia|]);
    assert (Hnone : Forall (fun x => todo sim x = false) post)
      by (revert Hpost; apply Forall_impl; intros x Hx;
          destruct (todo sim x) eqn:E; [|reflexivity];
          apply todo_spec in E; tauto).
  - simpl in *. unfold iteration. rewrite Hq, (filter_none _ _ Hnone). simpl.
    repeat split; auto.
  - assert (Hall : Forall (fun x => todo sim x = true) (pre ++ [e]))
      by (revert Hpre; apply Forall_impl; intros x Hx; apply todo_spec; tauto).
    apply Forall_app in Hpre. destruct Hpre as [Hpre He].
    inversion He as [|? ? (Hs & Hdue & n & Hcb) _]; subst.
    apply sorted_snoc in Hsorted. destruct Hsorted as [Hsorted Hlast].
    cbn [loop]. unfold iteration.
    rewrite Hq, filter_app, (filter_none _ _ Hnone), app_nil_r,
      (filter_all _ _ Hall), pop_last.
    rewrite <- app_assoc. simpl.
    rewrite writeLast_split;
      [|apply todo_spec; tauto|assumption].
    unfold call. simpl. rewrite Hcb, Hquiet. simpl.
    match goal with |- context [loop process fuel (S instant) ?s] =>
      specialize (IH (withStatus Pending e :: post) fuel (S instant) s);
      destruct (loop process fuel (S instant) s) as [[its sim'] exit] end.
    simpl in IH. destruct IH as (I1 & I2 & I3 & I4); try assumption;
      try reflexivity.
    + rewrite Forall_forall in Hpre, Hlast |- *. intros x Hx.
      destruct (Hpre x Hx) as (? & ? & ?). specialize (Hlast x Hx). auto.
    + constructor; [simpl; congruence|assumption].
    + rewrite length_app in Hfuel. simpl in Hfuel. lia.
    + simpl. rewrite I1, map_app, rev_app_distr. simpl.
      repeat split; try assumption.
      * rewrite I3, <- app_assoc. reflexivity.
      * constructor; [eexists; reflexivity|assumption].
Qed.

End RunOrder.


Section DispatchExample.
Import SimulationP.
Open Scope string_scope.

(** A process that schedules events while it is dispatched: the events are
    dispatched in the same run, each at its time. *)
Example ticker_run :
  summary (runSimulation tickers 10 0 (startWith 0 0))
  = ([("1", 0, ["2"]); ("2", 1, ["3"]); ("3", 2, ["4"]); ("4", 3, [])],
     Break,
     [("4", Completed, Some 3); ("3", Completed, Some 3);
      ("2", Completed, Some 3); ("1", Completed, Some 3)]).
Proof. vm_compute. reflexivity. Qed.

(** An event scheduled in the past by a process: the [RangeError] rejects
    the promise of an [async] body and the run goes on; it leaves the run
    when the body is a plain function. *)
Example past_event_in_a_process :
  summary (runSimulation tickers 10 0 (startWith 1 5))
  = ([("1", 5, [])], Break, [("1", Pending, None)])
  /\ summary (runSimulation tickers 10 0 (startWith 2 5))
     = ([("1", 5, [])], Throw (RangeError "101" 4 5), [("1", Pending, None)]).
Proof. vm_compute. split; reflexivity. Qed.

(** C1, the input that refutes the tie rule as stated.  Events "1" and
    "2" are admitted in this order, both due at 0; the run dispatches "2",
    the later admission, before "1". *)
Lemma later_admission_dispatched_first :
  id firstAdmitted = "1" /\ id secondAdmitted = "2"
  /\ scheduledAt firstAdmitted = scheduledAt secondAdmitted
  /\ let '(sim, done, err) :=
       admitAll initializeSimulation [firstAdmitted; secondAdmitted] in
     done = [firstAdmitted; secondAdmitted]
     /\ map id (events sim) = ["1"; "2"]
     /\ map id (map dispatched (trace (runSimulation producers 5 0 sim)))
        = ["2"; "1"]
     /\ map id (map dispatched (trace (runSimulation producers 5 0 sim)))
        <> map id [firstAdmitted; secondAdmitted].
Proof.
  vm_compute. repeat split; discriminate.
Qed.

End DispatchExample.

(** ** The run loop: what becomes of the dispatched events *)

Section RunQueue.
Context {T : Type}.
Variable process : nat -> Simulation T -> PromiseEvent T -> SimulationP.Turn T.
Import SimulationP.

Lemma writeLast_keeps {A} (p : A -> bool) (f : A -> A) (l : list A) (x : A) :
  In x l -> p x = false -> In x (Array.writeLast p f l).
Proof.
  intros Hin Hx. induction l as [|y l IH]; simpl in *; [assumption|].
  destruct (existsb p l).
  - destruct Hin as [->|Hin]; [now left|right; auto].
  - destruct Hin as [->|Hin]; [rewrite Hx; now left|].
    destruct (p y); now right.
Qed.

Lemma admitAll_keeps (es : list (PromiseEvent T)) (sim : Simulation T) x :
  In x (events sim) -> In x (events (fst (fst (admitAll sim es)))).
Proof.
  revert sim. induction es as [|e rest IH]; intros sim Hin; simpl; [assumption|].
  unfold admitEvent. destruct (scheduleEvent sim e) as [err|queue] eqn:E; simpl.
  - assumption.
  - apply scheduleEvent_queue in E. destruct E as (_ & Hperm & _).
    match goal with |- context [admitAll ?s rest] =>
      specialize (IH s); destruct (admitAll s rest) as [[sim'' done] err] end.
    simpl in *. apply IH. apply (Permutation_in _ (Permutation_sym Hperm)).
    now right.
Qed.

Lemma call_keeps instant (sim : Simulation T) event x :
  In x (events sim) -> In x (events (fst (fst (call process instant sim event)))).
Proof.
  intros Hin. unfold call. destruct (callback event) as [|name]; [assumption|].
  pose proof (admitAll_keeps (admits (process name sim event)) sim x Hin) as Hk.
  destruct (admitAll sim _) as [[sim' done] [err|]]; simpl in *; [|assumption].
  now destruct (async _).
Qed.

(** A pass leaves the dispatched event in the queue, as Pending, and keeps
    there every event that was not Scheduled. *)
Lemma iteration_queue instant (sim sim' : Simulation T) (it : Iteration T) :
  iteration process instant sim = Some (it, sim') ->
  In (dispatched it) (events sim')
  /\ forall x, In x (events sim) -> status x <> Scheduled -> In x (events sim').
Proof.
  unfold iteration.
  destruct (Array.pop (filter (todo sim) (events sim))) as [event|] eqn:E;
    [|discriminate].
  destruct (pop_filter_split _ _ _ E) as (pre & post & Hq & Hp & Hpost).
  match goal with |- context [call process instant ?s ?e] =>
    pose proof (call_keeps instant s e) as Hk;
    destruct (call process instant s e) as [[sim2 done] result] end.
  simpl in Hk. intros [= <- <-]. simpl. split.
  - apply Hk. rewrite Hq, (writeLast_split _ _ _ _ _ Hp Hpost).
    apply in_or_app. right. now left.
  - intros x Hin Hs. apply Hk. apply writeLast_keeps; [assumption|].
    destruct (todo sim x) eqn:Ht; [|reflexivity].
    apply todo_spec in Ht. tauto.
Qed.

Lemma loop_queue (fuel instant : nat) (sim : Simulation T) :
  let '(its, sim', _) := loop process fuel instant sim in
  Forall (fun it => In (dispatched it) (events sim')) its
  /\ forall x, In x (events sim) -> status x <> Scheduled -> In x (events sim').
Proof.
  revert instant sim. induction fuel as [|fuel IH]; intros instant sim; simpl.
  - split; [constructor|auto].
  - destruct (iteration process instant sim) as [[it sim1]|] eqn:E.
    + pose proof (iteration_clock process _ _ _ _ E) as (_ & _ & _ & Hs & _).
      apply iteration_queue in E. destruct E as [Hd Hk].
      destruct (called it) as [err|p].
      * split; [constructor; [assumption|constructor]|assumption].
      * specialize (IH (S instant) sim1).
        destruct (loop process fuel (S instant) sim1) as [[its sim2] exit].
        destruct IH as [I1 I2]. split.
        -- constructor; [|assumption]. apply I2; [assumption|]. congruence.
        -- intros x Hin Hx. apply I2; auto.
    + split; [constructor|auto].
Qed.

End RunQueue.

Section Settlement.
Context {T : Type}.
Variable process : nat -> Simulation T -> PromiseEvent T -> SimulationP.Turn T.
Import SimulationP.

Lemma find_absent (updates : list (nat * PromiseEvent T)) (i : string) :
  ~ In i (map idOf updates) ->
  find (fun h => String.eqb i (id (snd h))) updates = None.
Proof.
  induction updates as [|h rest IH]; simpl; [reflexivity|]. intros Hn.
  destruct (String.eqb_spec i (id (snd h))) as [E|E].
  - exfalso. apply Hn. left. now rewrite E.
  - apply IH. intros Hin. apply Hn. now right.
Qed.

Lemma find_unique (updates : list (nat * PromiseEvent T)) h :
  NoDup (map idOf updates) -> In h updates ->
  find (fun h' => String.eqb (idOf h) (id (snd h'))) updates = Some h.
Proof.
  induction updates as [|h' rest IH]; simpl; [tauto|].
  intros Hnd Hin. inversion Hnd as [|? ? Hfresh Hrest]; subst.
  destruct Hin as [->|Hin].
  - unfold idOf. now rewrite String.eqb_refl.
  - destruct (String.eqb_spec (idOf h) (id (snd h'))) as [E|E].
    + exfalso. apply Hfresh. unfold idOf at 1. rewrite <- E.
      now apply in_map.
    + now apply IH.
Qed.

(** With new events of distinct ids, the reactions in a row amount to one
    replacement of each event by the new event of its id. *)
Lemma settle_updates (updates : list (nat * PromiseEvent T)) events :
  NoDup (map idOf updates) ->
  fold_left (fun evs h => replaceEvent (snd h) evs) updates events
  = map (updateOf updates) events.
Proof.
  revert events. induction updates as [|h rest IH]; intros events Hnd; simpl.
  - unfold updateOf. simpl. now rewrite map_id.
  - inversion Hnd as [|? ? Hfresh Hrest]; subst.
    rewrite IH by assumption. unfold replaceEvent. rewrite map_map.
    apply map_ext. intros x. unfold updateOf. simpl.
    destruct (String.eqb_spec (id x) (id (snd h))) as [E|E].
    + now rewrite (find_absent rest (id (snd h)) Hfresh).
    + reflexivity.
Qed.

Lemma updateOf_id updates (x : PromiseEvent T) : id (updateOf updates x) = id x.
Proof.
  unfold updateOf.
  destruct (find _ updates) as [h|] eqn:E; [|reflexivity].
  apply find_some in E. destruct E as [_ E].
  now apply String.eqb_eq in E.
Qed.

Lemma handleEvent_id now (event newEvent : PromiseEvent T) termination p n :
  handleEvent now event termination p = Promise.Fulfilled n newEvent ->
  id newEvent = id event.
Proof.
  unfold handleEvent, Promise.race.
  destruct termination as [|i s|i e], p as [|j v|j e']; simpl;
    try destruct (i <=? j)%nat; intros [= <- <-] || discriminate; reflexivity.
Qed.

Lemma fulfilments_ids now termination (its : list (Iteration T)) h :
  In h (fulfilments (handles now termination its)) ->
  In (idOf h) (map id (map dispatched its)).
Proof.
  induction its as [|it rest IH]; simpl; [tauto|].
  destruct (called it) as [err|p]; [intros Hin; right; auto|]. simpl.
  destruct (handleEvent _ (dispatched it) termination p) as [|n newEvent|n e] eqn:E;
    try solve [intros Hin; right; auto].
  simpl. intros [<-|Hin]; [left|right; auto].
  symmetry. apply (handleEvent_id _ _ _ _ _ _ E).
Qed.

Lemma fulfilments_distinct now termination (its : list (Iteration T)) :
  NoDup (map id (map dispatched its)) ->
  NoDup (map idOf (fulfilments (handles now termination its))).
Proof.
  induction its as [|it rest IH]; simpl; [constructor|]. intros Hnd.
  inversion Hnd as [|? ? Hfresh Hrest]; subst.
  destruct (called it) as [err|p]; [auto|]. simpl.
  destruct (handleEvent _ (dispatched it) termination p) as [|n newEvent|n e] eqn:E;
    auto.
  simpl. constructor; [|auto]. intros Hin. apply Hfresh.
  apply in_map_iff in Hin. destruct Hin as (h & Hh & Hin).
  apply fulfilments_ids in Hin. unfold idOf in Hh, Hin. simpl in Hh.
  rewrite (handleEvent_id _ _ _ _ _ _ E) in Hh. now rewrite <- Hh.
Qed.

Lemma fulfilments_has now termination (its : list (Iteration T)) it p n newEvent :
  In it its -> called it = inr p ->
  handleEvent (fun _ => now) (dispatched it) termination p
  = Promise.Fulfilled n newEvent ->
  In (n, newEvent) (fulfilments (handles now termination its)).
Proof.
  intros Hin Hp Hh. induction its as [|it' rest IH]; simpl in *; [tauto|].
  destruct Hin as [->|Hin].
  - rewrite Hp. simpl. rewrite Hh. now left.
  - destruct (called it') as [err|p']; [auto|]. simpl.
    destruct (handleEvent _ (dispatched it') termination p'); simpl; auto.
Qed.

Lemma handleEvent_parked now (event : PromiseEvent T) handled stats p :
  parked handled p ->
  handleEvent now event (Promise.Fulfilled handled stats) p
  = Promise.Fulfilled handled (terminated (now handled) event).
Proof.
  unfold parked, handleEvent, Promise.race.
  destruct p as [|n v|n e]; simpl; try reflexivity;
    intros Hle; apply Nat.leb_le in Hle; now rewrite Hle.
Qed.

(** C6, as the code has it.  When the loop of a run breaks while the
    promise of a dispatched process is still pending, the run resolves
    [sim.termination], [handleEvent] resolves with the event as
    Terminated, finished at the final [currentTime], and the reaction of
    the run puts this event in [sim.events] in place of every event of the
    same id. *)
Theorem parked_process_terminated (fuel : nat) (elapsed : number)
    (sim : Simulation T) (it : Iteration T) (p : Promise.t T) :
  let run := runSimulation process fuel elapsed sim in
  termination sim = None ->
  exit run = Break ->
  NoDup (map id (map dispatched (trace run))) ->
  In it (trace run) ->
  called it = inr p ->
  parked (List.length (trace run)) p ->
  let newEvent := terminated (currentTime (final run)) (dispatched it) in
  termination (final run) = Some {| duration := elapsed |}
  /\ In newEvent (events (final run))
  /\ status newEvent = Terminated
  /\ finishedAt newEvent = Some (currentTime (final run))
  /\ forall e, In e (events (final run)) -> id e = id (dispatched it) ->
               e = newEvent.
Proof.
  unfold runSimulation.
  pose proof (loop_clock process fuel 0 sim) as Hc.
  pose proof (loop_queue process fuel 0 sim) as Hq.
  destruct (loop process fuel 0 sim) as [[its sim1] ex].
  destruct Hc as (_ & Ht & _ & _). destruct Hq as [Hq _].
  simpl. intros Hnone -> Hnd Hin Hp Hparked.
  rewrite Hnone in *. unfold terminate. rewrite Ht. simpl.
  set (now := currentTime sim1).
  set (stats := {| duration := elapsed |}).
  set (promise := Promise.Fulfilled (List.length its) stats).
  set (updates := Array.sort earliestFirst (fulfilments (handles now promise its))).
  assert (Hperm : Permutation updates (fulfilments (handles now promise its)))
    by apply sort_perm.
  assert (Hdistinct : NoDup (map idOf updates)).
  { apply (Permutation_NoDup (Permutation_sym (Permutation_map idOf Hperm))).
    now apply fulfilments_distinct. }
  assert (Hmine : In (List.length its, terminated now (dispatched it)) updates).
  { apply (Permutation_in _ (Permutation_sym Hperm)).
    apply (fulfilments_has _ _ _ it p); try assumption.
    now apply (handleEvent_parked (fun _ => now)). }
  assert (Hupdate : forall x, id x = id (dispatched it) ->
                              updateOf updates x = terminated now (dispatched it)).
  { intros x Hx. unfold updateOf.
    pose proof (find_unique updates _ Hdistinct Hmine) as Hf.
    unfold idOf in Hf. simpl in Hf. rewrite Hx. now rewrite Hf. }
  unfold settle. fold updates. rewrite settle_updates by assumption.
  repeat split.
  - rewrite Forall_forall in Hq. specialize (Hq it Hin).
    apply in_map_iff. exists (dispatched it). split; [|assumption].
    now apply Hupdate.
  - intros e He Hid. apply in_map_iff in He. destruct He as (x & <- & Hx).
    apply Hupdate. now rewrite updateOf_id in Hid.
Qed.

End Settlement.

(** ** The properties at concrete inputs *)

Section Inputs.
Import SimulationP.
Open Scope string_scope.

(** C6, the input that refutes it as stated.  One consumer, due at 10,
    whose [get] is never served: once the loop has stopped, the event of
    the parked process stands in [sim.events] as Terminated, finished
    at 10. *)
Lemma parked_consumer_ends_terminated :
  let sim := fst (admitEvent initializeSimulation parkedConsumer) in
  let run := runSimulation consumers 5 0 sim in
  map status (events sim) = [Scheduled]
  /\ exit run = Break
  /\ map called (trace run) = [inr Promise.Unsettled]
  /\ map (fun e => (id e, status e, finishedAt e)) (events (final run))
     = [("1", Terminated, Some 10)].
Proof.
  vm_compute. repeat split.
Qed.

(** C7, the inputs that refute it as stated.  The process comes to its
    result "foobar" and [handleEvent] gives the event as Terminated,
    without the result: in a first run, called in pass 0, when the
    simulation terminates at instant 1 and the result comes at instant 2;
    and on a simulation terminated before the call, here in pass 3, even
    for a promise of the process fulfilled already when it is returned. *)
Lemma late_result_ends_terminated :
  let event := withStatus Pending parkedConsumer in
  let newEvent := terminated 10 event in
  handleEvent (fun _ => 10) event
    (Promise.seenAt 0 (Promise.Fulfilled 1 {| duration := 0 |}))
    (Promise.seenAt 0 (Promise.Fulfilled 2 "foobar"))
  = Promise.Fulfilled 1 newEvent
  /\ handleEvent (fun _ => 10) event
       (Promise.seenAt 3 (Promise.Fulfilled 0 {| duration := 0 |}))
       (Promise.seenAt 3 (Promise.Fulfilled 0 "foobar"))
     = Promise.Fulfilled 3 newEvent
  /\ status newEvent = Terminated
  /\ status newEvent <> Completed
  /\ item newEvent = None
  /\ item newEvent <> Some "foobar".
Proof.
  vm_compute. repeat split; discriminate.
Qed.

Lemma scheduleEvent_causality_witness :
  let sim : Simulation string :=
    {| currentTime := 20; events := []; termination := None |} in
  parkedConsumer.(scheduledAt) < currentTime sim
  /\ scheduleEvent sim parkedConsumer = inl (RangeError "1" 10 20)
  /\ fst (admitEvent sim parkedConsumer) = sim
  /\ events (fst (admitEvent sim parkedConsumer)) = events sim.
Proof.
  intros sim. split; [reflexivity|].
  apply (proj2 (scheduleEvent_causality sim parkedConsumer)). reflexivity.
Defined.

Lemma initializeSimulation_fresh_witness :
  0 <= scheduledAt parkedConsumer
  /\ scheduleEvent initializeSimulation parkedConsumer
     = inr [withStatus Scheduled parkedConsumer].
Proof.
  split; [discriminate|].
  apply (proj2 (proj2 initializeSimulation_fresh)). discriminate.
Defined.

Lemma handleEvent_outcome_witness :
  (exists newEvent,
     handleEvent (fun _ => 10) parkedConsumer
       (Promise.seenAt 1 (Promise.Fulfilled 3 {| duration := 0 |}))
       (Promise.seenAt 1 (Promise.Fulfilled 2 "foobar"))
     = Promise.Fulfilled (Nat.max 2 1) newEvent
     /\ newEvent = completed 10 "foobar" parkedConsumer
     /\ status newEvent = Completed
     /\ finishedAt newEvent = Some 10
     /\ item newEvent = Some "foobar"
     /\ id newEvent = id parkedConsumer)
  /\ (let newEvent := terminated 10 parkedConsumer in
      handleEvent (fun _ => 10) parkedConsumer
        (Promise.seenAt 1 (Promise.Fulfilled 0 {| duration := 0 |}))
        (Promise.seenAt 1 (Promise.Fulfilled 0 "foobar"))
      = Promise.Fulfilled (Nat.max 0 1) newEvent
      /\ status newEvent = Terminated
      /\ finishedAt newEvent = Some 10
      /\ item newEvent = item parkedConsumer
      /\ id newEvent = id parkedConsumer).
Proof.
  split.
  - apply (proj1 (handleEvent_outcome (fun _ => 10) parkedConsumer
                    (Promise.Fulfilled 3 {| duration := 0 |}) 1 2 "foobar")).
    simpl. lia.
  - apply (proj2 (handleEvent_outcome (fun _ => 10) parkedConsumer
                    (Promise.Fulfilled 0 {| duration := 0 |}) 1 0 "foobar")
             0%nat {| duration := 0 |} eq_refl).
    left. lia.
Defined.

Lemma parked_process_terminated_witness :
  let sim := fst (admitEvent initializeSimulation parkedConsumer) in
  let run := runSimulation consumers 5 0 sim in
  let it := {| dispatched := withStatus Pending parkedConsumer; clock := 10;
               admitted := []; called := inr Promise.Unsettled |} in
  let newEvent := terminated (currentTime (final run)) (dispatched it) in
  termination (final run) = Some {| duration := 0 |}
  /\ In newEvent (events (final run))
  /\ status newEvent = Terminated
  /\ finishedAt newEvent = Some (currentTime (final run))
  /\ forall e, In e (events (final run)) -> id e = id (dispatched it) ->
               e = newEvent.
Proof.
  intros sim run it.
  apply (parked_process_terminated consumers 5 0 sim it Promise.Unsettled).
  - reflexivity.
  - reflexivity.
  - repeat constructor. simpl. tauto.
  - left. reflexivity.
  - reflexivity.
  - exact I.
Defined.

Lemma deposit_resumption_witness :
  let store : Resources.Store string :=
    {| Resources.putRequests := []; Resources.getRequests := [] |} in
  let matched isBlocking :=
    snd (Resources.operate (Resources.Request 40 "e2")
           (fst (Resources.operateAll
                   [Resources.Deposit 30 "e1" "foobar" isBlocking] store))) in
  snd (Resources.operate (Resources.Deposit 30 "e1" "foobar" true) store) = []
  /\ matched true
     = [ {| Resources.who := "e2"; Resources.time := 40;
            Resources.handed := Some "foobar" |};
         {| Resources.who := "e1"; Resources.time := 40;
            Resources.handed := None |} ]
  /\ Forall (fun r => Resources.time r = 40 /\ Resources.time r <> 30)
            (matched true)
  /\ snd (Resources.operate (Resources.Deposit 30 "e1" "foobar" false) store)
     = [ {| Resources.who := "e1"; Resources.time := 30;
            Resources.handed := None |} ]
  /\ matched false
     = [ {| Resources.who := "e2"; Resources.time := 40;
            Resources.handed := Some "foobar" |} ].
Proof.
  apply (deposit_resumption [] [] 30 40 "e1" "e2" "foobar").
  - reflexivity.
  - reflexivity.
Defined.

End Inputs.

(** * Further properties of the code *)

(** ** store.ts: requests, deposits and pending promises *)

Section StoreQueues.
Context {T : Type} `{Store.ToBoolean T}.
Import Store.

Lemma play_requests (m : nat) (store : Store T) :
  items (state store) = [] ->
  play (repeat Get m) store
  = ({| state := {| id := id (state store); items := [];
                    queue := queue (state store) ++ seq (made store) m |};
        made := (made store + m)%nat;
        resolved := resolved store |},
     map Waiting (seq (made store) m)).
Proof.
  revert store. induction m as [|m IH]; intros [[uuid its q] n r] Hi;
    simpl in *; subst its.
  - now rewrite app_nil_r, Nat.add_0_r.
  - unfold get at 1. simpl. unfold park. simpl. rewrite IH by reflexivity. simpl.
    rewrite <- app_assoc. simpl. now rewrite Nat.add_succ_r.
Qed.

Lemma play_deposits (xs : list T) (store : Store T) :
  (List.length xs <= List.length (queue (state store)))%nat ->
  play (map Put xs) store
  = ({| state := {| id := id (state store); items := items (state store);
                    queue := skipn (List.length xs) (queue (state store)) |};
        made := made store;
        resolved := resolved store
                    ++ combine (firstn (List.length xs) (queue (state store))) xs |},
     map Resolved xs).
Proof.
  revert store. induction xs as [|x xs IH]; intros [[uuid its q] n r] Hq;
    simpl in *.
  - now rewrite app_nil_r.
  - destruct q as [|request waiting]; simpl in Hq; [lia|].
    unfold put at 1. simpl. rewrite IH by (simpl; lia). simpl.
    now rewrite <- app_assoc.
Qed.

Lemma firstn_seq (n a m : nat) : firstn n (seq a m) = seq a (Nat.min n m).
Proof.
  revert a m. induction n as [|n IH]; intros a [|m]; simpl; try reflexivity.
  now rewrite IH.
Qed.

Lemma delivery_later (request a n : nat) (xs : list T) :
  (request < a)%nat -> delivery request (combine (seq a n) xs) = None.
Proof.
  revert a xs. induction n as [|n IH]; intros a xs Hlt; simpl; [reflexivity|].
  destruct xs as [|x xs]; simpl; [reflexivity|].
  destruct (Nat.eqb_spec a request); [lia|]. apply IH. lia.
Qed.

Lemma deliveries (a m : nat) (xs : list T) :
  (List.length xs <= m)%nat ->
  map (fun request => delivery request (combine (seq a (List.length xs)) xs))
      (seq a m)
  = map Some xs ++ repeat None (m - List.length xs).
Proof.
  revert a m. induction xs as [|x xs IH]; intros a m Hm; simpl.
  - rewrite Nat.sub_0_r. clear Hm. revert a.
    induction m as [|m IHm]; intros a; simpl; [reflexivity|]. now rewrite IHm.
  - destruct m as [|m]; simpl in *; [lia|]. rewrite Nat.eqb_refl. f_equal.
    rewrite <- (IH (S a) m) by lia. apply map_ext_in. intros request Hr.
    apply in_seq in Hr. destruct (Nat.eqb_spec a request); [lia|reflexivity].
Qed.

(** X13.  Requests before deposits.  On a new, empty store, M requests followed
    by N deposits, N no more than M: every request waits, the first N
    requests are resolved with the N items in the order of the deposits,
    whatever the items are, and the other M - N requests stay in [queue].
    No item is kept in [items]. *)
Theorem requests_then_deposits (uuid : string) (xs : list T) (m : nat) :
  (List.length xs <= m)%nat ->
  let run := play (repeat Get m ++ map Put xs) (createStore uuid []) in
  firstn m (snd run) = map Waiting (seq 0 m)
  /\ map (outcome (fst run)) (firstn m (snd run))
     = map Some xs ++ repeat None (m - List.length xs)
  /\ queue (state (fst run)) = seq (List.length xs) (m - List.length xs)
  /\ items (state (fst run)) = [].
Proof.
  intros Hm. rewrite play_app, play_requests by reflexivity. simpl.
  rewrite play_deposits by (simpl; rewrite length_seq; assumption). simpl.
  assert (Hfirst : firstn m (map (@Waiting T) (seq 0 m) ++ map Resolved xs)
                   = map Waiting (seq 0 m)).
  { rewrite firstn_app, length_map, length_seq, Nat.sub_diag. simpl.
    rewrite app_nil_r. apply firstn_all2. now rewrite length_map, length_seq. }
  rewrite Hfirst. repeat split.
  - rewrite map_map. simpl. rewrite firstn_seq.
    replace (Nat.min (List.length xs) m) with (List.length xs) by lia.
    now apply deliveries.
  - rewrite skipn_seq. reflexivity.
Qed.

(** X14.  The promises made by [get].  After any calls on a store, each promise
    that [get] made is either still waiting in [queue] or was resolved, by
    exactly one call: the requests in [queue] and the resolved ones are,
    together, the promises made, each once. *)
Theorem pending_promises_partition (uuid : string) (initialItems : list T)
    (actions : list (Action T)) :
  let store := fst (play actions (createStore uuid initialItems)) in
  Permutation (queue (state store) ++ map fst (resolved store))
              (seq 0 (made store))
  /\ NoDup (map fst (resolved store))
  /\ forall request, In request (queue (state store)) ->
                     ~ In request (map fst (resolved store)).
Proof.
  assert (Hinv : forall (acts : list (Action T)) (store : Store T),
             Permutation (queue (state store) ++ map fst (resolved store))
                         (seq 0 (made store)) ->
             Permutation
               (queue (state (fst (play acts store)))
                ++ map fst (resolved (fst (play acts store))))
               (seq 0 (made (fst (play acts store))))).
  { induction acts as [|a rest IH]; intros store Hp; [exact Hp|]. simpl.
    assert (Hstep : Permutation
                      (queue (state (fst (act a store)))
                       ++ map fst (resolved (fst (act a store))))
                      (seq 0 (made (fst (act a store))))).
    { destruct store as [[u its q] n r]. simpl in Hp.
      assert (Hpark : Permutation ((q ++ [n]) ++ map fst r) (seq 0 (S n))).
      { rewrite seq_S. simpl. rewrite <- Hp.
        rewrite <- !app_assoc. apply Permutation_app_head.
        apply Permutation_app_comm. }
      destruct a as [item|]; simpl.
      - unfold put. simpl. destruct q as [|request waiting]; simpl.
        + exact Hp.
        + rewrite map_app. simpl. rewrite <- Hp. simpl.
          rewrite app_assoc. apply Permutation_sym, Permutation_cons_append.
      - unfold get. simpl. destruct its as [|item remaining]; simpl.
        + exact Hpark.
        + destruct (truthy item); simpl; [exact Hp|exact Hpark]. }
    destruct (act a store) as [store' answer]. simpl in Hstep.
    specialize (IH store' Hstep).
    now destruct (play rest store') as [store'' answers]. }
  intros store.
  assert (Hp : Permutation (queue (state store) ++ map fst (resolved store))
                           (seq 0 (made store)))
    by (apply Hinv; reflexivity).
  assert (Hnd : NoDup (queue (state store) ++ map fst (resolved store)))
    by (apply (Permutation_NoDup (Permutation_sym Hp)), seq_NoDup).
  split; [exact Hp|]. split.
  - now apply NoDup_app_remove_l in Hnd.
  - intros request Hq Hr. revert Hnd Hq Hr.
    generalize (map fst (resolved store)). generalize (queue (state store)).
    intros q. induction q as [|y q IH]; simpl; intros r Hnd Hq Hr; [tauto|].
    inversion Hnd as [|? ? Hy Hrest]; subst. destruct Hq as [->|Hq].
    + apply Hy. apply in_or_app. now right.
    + now apply (IH r).
Qed.

(** X15.  The imbalance of a store.  With truthy items only, the lengths of the
    two queues of a new store depend on the numbers of deposits and of
    requests alone, not on their order: [items] holds the deposits in
    excess and [queue] the requests in excess. *)
Theorem store_imbalance (uuid : string) (actions : list (Action T)) :
  Forall truthyAction actions ->
  let store := fst (play actions (createStore uuid [])) in
  List.length (items (state store)) = (putCount actions - getCount actions)%nat
  /\ List.length (queue (state store)) = (getCount actions - putCount actions)%nat.
Proof.
  assert (Hinv : forall (acts : list (Action T)) (store : Store T),
             Forall truthyAction acts ->
             balanced store /\ allTruthy store ->
             let store' := fst (play acts store) in
             (balanced store' /\ allTruthy store')
             /\ (List.length (items (state store')) + List.length (queue (state store))
                 + getCount acts
                 = List.length (items (state store)) + List.length (queue (state store'))
                   + putCount acts)%nat).
  { induction acts as [|a rest IH]; intros store Hall Hb.
    - simpl. split; [assumption|]. unfold getCount, putCount. simpl. lia.
    - inversion Hall as [|? ? Ha Hrest]; subst. simpl.
      pose proof (act_balanced a store Ha Hb) as Hstep.
      assert (Hlen : (List.length (items (state (fst (act a store))))
                      + List.length (queue (state store))
                      + getCount [a]
                      = List.length (items (state store))
                        + List.length (queue (state (fst (act a store))))
                        + putCount [a])%nat).
      { destruct Hb as [Hb Ht]. unfold balanced, allTruthy in *.
        destruct store as [[u its q] n r]. simpl in *.
        destruct a as [item|]; unfold getCount, putCount; simpl.
        - unfold put. simpl. destruct q as [|request waiting]; simpl.
          + rewrite length_app. simpl. lia.
          + lia.
        - unfold get. simpl. destruct its as [|item remaining]; simpl.
          + rewrite length_app. simpl. lia.
          + inversion Ht as [|? ? Hi Hr]; subst. rewrite Hi. simpl. lia. }
      destruct (act a store) as [store' answer]. simpl in Hstep, Hlen.
      specialize (IH store' Hrest Hstep).
      destruct (play rest store') as [store'' answers]. simpl in *.
      destruct IH as [IHb IHl]. split; [assumption|].
      unfold getCount, putCount in *. simpl in *.
      destruct a; simpl in *; lia. }
  intros Hall store.
  destruct (Hinv actions (createStore uuid []) Hall) as [[Hb _] Hl].
  { split; [now left|constructor]. }
  fold store in Hb, Hl. simpl in Hl. unfold balanced in Hb.
  destruct Hb as [Hb|Hb]; rewrite Hb in *; simpl in *; lia.
Qed.

(** X16.  Initial items.  A store created with initial items is the store that a
    new, empty store becomes once the items are deposited in their order,
    and every later call is answered alike by the two. *)
Theorem initial_items_as_deposits (uuid : string) (xs : list T)
    (actions : list (Action T)) :
  fst (play (map Put xs) (createStore uuid [])) = createStore uuid xs
  /\ fst (play (map Put xs ++ actions) (createStore uuid []))
     = fst (play actions (createStore uuid xs))
  /\ skipn (List.length xs) (snd (play (map Put xs ++ actions) (createStore uuid [])))
     = snd (play actions (createStore uuid xs)).
Proof.
  assert (E : play (map Put xs) (createStore uuid [])
              = (createStore uuid xs, map Resolved xs))
    by (rewrite play_puts; reflexivity).
  rewrite play_app, E. simpl. repeat split.
  rewrite skipn_app, length_map, Nat.sub_diag. simpl.
  rewrite skipn_all2 by (rewrite length_map; lia). reflexivity.
Qed.

End StoreQueues.

(** ** simulation-p.ts: createEvent and scheduleEvent *)

Section Creation.
Context {T : Type}.
Import SimulationP.

Lemma generateId_injective (n m : nat) :
  snd (generateId n) = snd (generateId m) -> n = m.
Proof.
  unfold generateId. simpl. intros E.
  assert (Hu : Some (Nat.to_uint (S n)) = Some (Nat.to_uint (S m)))
    by (rewrite <- !NilEmpty.usu; now rewrite E).
  injection Hu as Hu. apply Unsigned.to_uint_inj in Hu. congruence.
Qed.

Lemma createAll_ids (specs : list (number * option Callback * option T))
    (lastId : nat) (sim : Simulation T) :
  fst (createAll lastId sim specs) = (lastId + List.length specs)%nat
  /\ map id (snd (createAll lastId sim specs))
     = map (fun n => snd (generateId n)) (seq lastId (List.length specs)).
Proof.
  revert lastId. induction specs as [|[[due callback] item] rest IH];
    intros lastId; simpl; [now rewrite Nat.add_0_r|].
  specialize (IH (S lastId)). destruct (createAll (S lastId) sim rest) as [n es].
  simpl in *. destruct IH as [-> ->]. split; [lia|reflexivity].
Qed.

(** X2.  Ids.  Events created one after the other carry the ids that follow the
    counter, in decimal, and no two of them share an id; each is Fired, was
    fired at the clock of the simulation and is not finished. *)
Theorem created_events_distinct (specs : list (number * option Callback * option T))
    (lastId : nat) (sim : Simulation T) :
  let created := snd (createAll lastId sim specs) in
  fst (createAll lastId sim specs) = (lastId + List.length specs)%nat
  /\ NoDup (map id created)
  /\ map scheduledAt created = map (fun spec => fst (fst spec)) specs
  /\ Forall (fun e => status e = Fired /\ firedAt e = currentTime sim
                      /\ finishedAt e = None) created.
Proof.
  intros created. destruct (createAll_ids specs lastId sim) as [Hn Hids].
  split; [exact Hn|]. split.
  - unfold created. rewrite Hids. apply Finite.Injective_map_NoDup.
    + intros n m. apply generateId_injective.
    + apply seq_NoDup.
  - unfold created. clear created Hn Hids. revert lastId.
    induction specs as [|[[due callback] item] rest IH]; intros lastId; simpl;
      [split; constructor|].
    specialize (IH (S lastId)).
    destruct (createAll (S lastId) sim rest) as [n es]. simpl in *.
    destruct IH as [IH1 IH2]. split; [now rewrite IH1|].
    constructor; [repeat split|assumption].
Qed.

Lemma place_first {A} (key : A -> Z) (a : A) (l : list A) :
  Forall (fun y => key y <= key a) l ->
  Array.place (largestFirst key) a l = a :: l.
Proof.
  intros Hl. destruct l as [|y l]; simpl; [reflexivity|].
  inversion Hl as [|? ? Hy _]; subst. unfold largestFirst.
  destruct (0 <? key y - key a) eqn:E; [|reflexivity].
  apply Z.ltb_lt in E. lia.
Qed.

(** Where a stable sort puts an element pushed on a descending array. *)
Lemma sort_push_position {A} (key : A -> Z) (x : A) (l : list A) :
  descending key l ->
  exists pre post,
    l = pre ++ post
    /\ Forall (fun y => key x <= key y) pre
    /\ Forall (fun y => key y < key x) post
    /\ Array.sort (largestFirst key) (l ++ [x]) = pre ++ x :: post.
Proof.
  unfold descending. induction l as [|a l IH]; intros Hs.
  - exists [], []. repeat split; constructor.
  - inversion Hs as [|? ? Hl Ha]; subst.
    destruct (IH Hl) as (pre & post & -> & Hpre & Hpost & E).
    simpl. rewrite E. destruct (Z.le_gt_cases (key x) (key a)) as [Hle|Hgt].
    + exists (a :: pre), post. repeat split; try assumption.
      * now constructor.
      * change (a :: pre ++ x :: post) with (a :: (pre ++ x :: post)).
        apply place_first. apply Forall_app in Ha. destruct Ha as [Ha1 Ha2].
        apply Forall_app. split; [assumption|]. now constructor.
    + assert (pre = []) as ->.
      { destruct pre as [|y pre]; [reflexivity|]. exfalso.
        inversion Hpre as [|? ? Hy _]; subst.
        inversion Ha as [|? ? Hya _]; subst. lia. }
      exists [], (a :: post). simpl in *. repeat split.
      * constructor.
      * constructor; [lia|assumption].
      * unfold largestFirst at 1. simpl.
        replace (0 <? key x - key a) with true by (symmetry; apply Z.ltb_lt; lia).
        f_equal. now apply place_first.
Qed.

(** X1.  The place of an admitted event.  In a queue that is latest first, as
    every queue returned by [scheduleEvent] is, [scheduleEvent] puts the
    event, as Scheduled, behind the events due at its time or later and
    before the events due earlier; the other events keep their places and
    the array of the simulation is not written. *)
Theorem scheduleEvent_position (sim : Simulation T) (event : PromiseEvent T)
    (queue : list (PromiseEvent T)) :
  latestFirstSorted (events sim) ->
  scheduleEvent sim event = inr queue ->
  exists pre post,
    events sim = pre ++ post
    /\ queue = pre ++ withStatus Scheduled event :: post
    /\ Forall (fun e => scheduledAt event <= scheduledAt e) pre
    /\ Forall (fun e => scheduledAt e < scheduledAt event) post
    /\ latestFirstSorted queue.
Proof.
  intros Hs E.
  destruct (sort_push_position scheduledAt (withStatus Scheduled event)
              (events sim) Hs) as (pre & post & Hq & Hpre & Hpost & Hsort).
  unfold scheduleEvent in E.
  destruct (scheduledAt event <? currentTime sim); [discriminate|].
  injection E as <-. exists pre, post. repeat split; try assumption.
  apply latestFirst_sorted.
Qed.

End Creation.

(** ** simulation-p.ts: what a run does to the queue *)

Section RunAccounts.
Context {T : Type}.
Variable process : nat -> Simulation T -> PromiseEvent T -> SimulationP.Turn T.
Import SimulationP.

Lemma countScheduled_perm (l l' : list (PromiseEvent T)) :
  Permutation l l' -> countScheduled l = countScheduled l'.
Proof.
  unfold countScheduled. induction 1 as [|x l l' Hp IH|x y l|l l' l'' H1 IH1 H2 IH2];
    simpl; try reflexivity.
  - destruct (EventState_eqb (status x) Scheduled); simpl; congruence.
  - destruct (EventState_eqb (status x) Scheduled),
      (EventState_eqb (status y) Scheduled); reflexivity.
  - congruence.
Qed.

Lemma countScheduled_app (l l' : list (PromiseEvent T)) :
  countScheduled (l ++ l') = (countScheduled l + countScheduled l')%nat.
Proof.
  unfold countScheduled. now rewrite filter_app, length_app.
Qed.

Lemma admitAll_account (es : list (PromiseEvent T)) (sim : Simulation T) :
  let '(sim', done, _) := admitAll sim es in
  countScheduled (events sim') = (countScheduled (events sim) + List.length done)%nat
  /\ Permutation (map id (events sim')) (map id (events sim) ++ map id done).
Proof.
  revert sim. induction es as [|e rest IH]; intros sim; simpl.
  - rewrite app_nil_r. split; [lia|reflexivity].
  - unfold admitEvent. destruct (scheduleEvent sim e) as [err|queue] eqn:E; simpl.
    + rewrite app_nil_r. split; [lia|reflexivity].
    + apply scheduleEvent_queue in E. destruct E as (_ & Hperm & _).
      match goal with |- context [admitAll ?s rest] =>
        specialize (IH s); destruct (admitAll s rest) as [[sim'' done] err] end.
      simpl in *. destruct IH as [IHc IHp]. split.
      * rewrite IHc, (countScheduled_perm _ _ Hperm).
        change (withStatus Scheduled e :: events sim)
          with ([withStatus Scheduled e] ++ events sim).
        rewrite countScheduled_app. unfold countScheduled at 1. simpl. lia.
      * rewrite IHp, (Permutation_map id Hperm). simpl.
        apply Permutation_middle.
Qed.

Lemma call_account instant (sim : Simulation T) (event : PromiseEvent T) :
  let '(sim', done, _) := call process instant sim event in
  countScheduled (events sim') = (countScheduled (events sim) + List.length done)%nat
  /\ Permutation (map id (events sim')) (map id (events sim) ++ map id done).
Proof.
  unfold call. destruct (callback event) as [|name].
  - rewrite app_nil_r. split; [simpl; lia|reflexivity].
  - pose proof (admitAll_account (admits (process name sim event)) sim) as Ha.
    destruct (admitAll sim _) as [[sim' done] [err|]]; [|exact Ha].
    now destruct (async _).
Qed.

Lemma writeLast_map {A B} (p : A -> bool) (f : A -> A) (g : A -> B) (l : list A) :
  (forall x, g (f x) = g x) -> map g (Array.writeLast p f l) = map g l.
Proof.
  intros Hg. induction l as [|x l IH]; simpl; [reflexivity|].
  destruct (existsb p l); simpl; [now rewrite IH|].
  destruct (p x); simpl; [now rewrite Hg|reflexivity].
Qed.

(** A pass turns one Scheduled event into a Pending one and adds what the
    process scheduled. *)
Lemma iteration_account instant (sim sim' : Simulation T) (it : Iteration T) :
  iteration process instant sim = Some (it, sim') ->
  (countScheduled (events sim') + 1
   = countScheduled (events sim) + List.length (admitted it))%nat
  /\ Permutation (map id (events sim'))
                 (map id (events sim) ++ map id (admitted it)).
Proof.
  unfold iteration.
  destruct (Array.pop (filter (todo sim) (events sim))) as [event|] eqn:E;
    [|discriminate].
  destruct (pop_filter_split _ _ _ E) as (pre & post & Hq & Hp & Hpost).
  match goal with |- context [call process instant ?s ?e] =>
    pose proof (call_account instant s e) as Hc;
    destruct (call process instant s e) as [[sim2 done] result] end.
  simpl in Hc. destruct Hc as [Hc1 Hc2]. intros [= <- <-]. simpl.
  pose proof (proj1 (todo_spec _ _) Hp) as [_ Hs]. split.
  - rewrite Hc1, Hq, (writeLast_split _ _ _ _ _ Hp Hpost).
    rewrite !countScheduled_app.
    change (withStatus Pending event :: post)
      with ([withStatus Pending event] ++ post).
    change (event :: post) with ([event] ++ post).
    rewrite !countScheduled_app. unfold countScheduled at 2 5. simpl.
    rewrite Hs. simpl. lia.
  - rewrite Hc2. apply Permutation_app_tail.
    rewrite (writeLast_map _ _ id); [reflexivity|reflexivity].
Qed.

End RunAccounts.

Section RunTotals.
Context {T : Type}.
Variable process : nat -> Simulation T -> PromiseEvent T -> SimulationP.Turn T.
Import SimulationP.

Lemma loop_account (fuel instant : nat) (sim : Simulation T) :
  let '(its, sim', _) := loop process fuel instant sim in
  (List.length its + countScheduled (events sim')
   = countScheduled (events sim) + List.length (admittedIn its))%nat
  /\ Permutation (map id (events sim'))
                 (map id (events sim) ++ map id (admittedIn its)).
Proof.
  revert instant sim. induction fuel as [|fuel IH]; intros instant sim; simpl.
  - rewrite app_nil_r. split; [lia|reflexivity].
  - destruct (iteration process instant sim) as [[it sim1]|] eqn:E.
    + apply iteration_account in E. destruct E as [E1 E2].
      destruct (called it) as [err|p].
      * unfold admittedIn. simpl. rewrite !app_nil_r. split; [lia|assumption].
      * specialize (IH (S instant) sim1).
        destruct (loop process fuel (S instant) sim1) as [[its sim2] exit].
        destruct IH as [I1 I2]. unfold admittedIn in *. simpl. split.
        -- rewrite length_app. lia.
        -- rewrite I2, E2, map_app, <- app_assoc. reflexivity.
    + rewrite app_nil_r. split; [simpl; lia|reflexivity].
Qed.

Lemma replaceEvent_ids (newEvent : PromiseEvent T) (evs : list (PromiseEvent T)) :
  map id (replaceEvent newEvent evs) = map id evs.
Proof.
  unfold replaceEvent. rewrite map_map. apply map_ext. intros x.
  destruct (String.eqb_spec (id x) (id newEvent)); congruence.
Qed.

Lemma replaceEvent_count (newEvent : PromiseEvent T) (evs : list (PromiseEvent T)) :
  status newEvent <> Scheduled ->
  (countScheduled (replaceEvent newEvent evs) <= countScheduled evs)%nat.
Proof.
  intros Hs. unfold countScheduled, replaceEvent.
  induction evs as [|x evs IH]; simpl; [lia|].
  destruct (String.eqb (id x) (id newEvent)).
  - destruct (status newEvent); try congruence; simpl;
      destruct (EventState_eqb (status x) Scheduled); simpl; lia.
  - destruct (EventState_eqb (status x) Scheduled); simpl; lia.
Qed.

Lemma handleEvent_status now (event newEvent : PromiseEvent T) termination p n :
  handleEvent now event termination p = Promise.Fulfilled n newEvent ->
  (newEvent = terminated (now n) event
   \/ exists result, newEvent = completed (now n) result event).
Proof.
  unfold handleEvent, Promise.race.
  destruct termination as [|i s|i e], p as [|j v|j e']; simpl;
    try destruct (i <=? j)%nat; intros [= <- <-] || discriminate;
    (now left) || (right; eexists; reflexivity).
Qed.

Lemma handles_status now termination (its : list (Iteration T)) :
  Forall (fun h => status (snd h) <> Scheduled)
         (fulfilments (handles now termination its)).
Proof.
  induction its as [|it rest IH]; simpl; [constructor|].
  destruct (called it) as [err|p]; [assumption|]. simpl.
  destruct (handleEvent _ (dispatched it) termination p) as [|n newEvent|n e] eqn:E;
    try assumption.
  constructor; [|assumption]. simpl.
  destruct (handleEvent_status _ _ _ _ _ _ E) as [->|[result ->]]; discriminate.
Qed.

Lemma settle_account (hs : list (Promise.t (PromiseEvent T))) evs :
  Forall (fun h => status (snd h) <> Scheduled) (fulfilments hs) ->
  map id (settle hs evs) = map id evs
  /\ (countScheduled (settle hs evs) <= countScheduled evs)%nat.
Proof.
  intros Hall. unfold settle.
  assert (Hsorted : Forall (fun h : nat * PromiseEvent T => status (snd h) <> Scheduled)
                      (Array.sort earliestFirst (fulfilments hs))).
  { rewrite Forall_forall in Hall |- *. intros h Hh. apply Hall.
    apply (Permutation_in _ (sort_perm _ _) Hh). }
  revert evs Hsorted. generalize (Array.sort earliestFirst (fulfilments hs)).
  intros updates. induction updates as [|h rest IH]; intros evs Hs; simpl.
  - split; [reflexivity|lia].
  - inversion Hs as [|? ? Hh Hrest]; subst.
    destruct (IH (replaceEvent (snd h) evs) Hrest) as [I1 I2]. split.
    + now rewrite I1, replaceEvent_ids.
    + pose proof (replaceEvent_count (snd h) evs Hh). lia.
Qed.

Lemma terminate_events (sim : Simulation T) stats :
  events (terminate sim stats) = events sim
  /\ currentTime (terminate sim stats) = currentTime sim.
Proof.
  unfold terminate. now destruct (termination sim).
Qed.

(** X6.  The events of the queue.  A run drops no event from [sim.events] and
    invents none: the ids in the queue, once every promise of the run
    settled, are the ids it held before the run and the ids of the events
    that the processes scheduled, each as often. *)
Theorem run_keeps_events (fuel : nat) (elapsed : number) (sim : Simulation T) :
  let run := runSimulation process fuel elapsed sim in
  Permutation (map id (events (final run)))
              (map id (events sim) ++ map id (admittedIn (trace run)))
  /\ List.length (events (final run))
     = (List.length (events sim) + List.length (admittedIn (trace run)))%nat.
Proof.
  unfold runSimulation. pose proof (loop_account fuel 0 sim) as Hl.
  destruct (loop process fuel 0 sim) as [[its sim1] ex].
  destruct Hl as [_ Hp]. simpl.
  match goal with |- context [settle ?hs ?evs] =>
    destruct (settle_account hs evs) as [Hids _]; [apply handles_status|] end.
  assert (He : events (match ex with
                       | Break => terminate sim1 {| duration := elapsed |}
                       | _ => sim1
                       end) = events sim1)
    by (destruct ex; try reflexivity; apply terminate_events).
  rewrite He in Hids.
  assert (Hperm : Permutation
                    (map id (settle (handles
                       (currentTime (match ex with
                                     | Break => terminate sim1 {| duration := elapsed |}
                                     | _ => sim1
                                     end))
                       (simulationProcess (termination sim) ex (List.length its)
                          {| duration := elapsed |}) its)
                       (events (match ex with
                                | Break => terminate sim1 {| duration := elapsed |}
                                | _ => sim1
                                end))))
                    (map id (events sim) ++ map id (admittedIn its))).
  { rewrite He, Hids. exact Hp. }
  split; [exact Hperm|].
  apply Permutation_length in Hperm.
  now rewrite length_app, !length_map in Hperm.
Qed.

(** X4.  Each event is dispatched at most once.  The passes of a run and the
    events still Scheduled after it are, together, no more than the events
    that were Scheduled before it and those the processes scheduled. *)
Theorem dispatch_budget (fuel : nat) (elapsed : number) (sim : Simulation T) :
  let run := runSimulation process fuel elapsed sim in
  (List.length (trace run) + countScheduled (events (final run))
   <= countScheduled (events sim) + List.length (admittedIn (trace run)))%nat.
Proof.
  unfold runSimulation. pose proof (loop_account fuel 0 sim) as Hl.
  destruct (loop process fuel 0 sim) as [[its sim1] ex].
  destruct Hl as [Hc _]. simpl.
  match goal with |- context [settle ?hs ?evs] =>
    destruct (settle_account hs evs) as [_ Hle]; [apply handles_status|];
    assert (He : countScheduled evs = countScheduled (events sim1))
      by (destruct ex; try reflexivity; now rewrite (proj1 (terminate_events _ _)))
  end.
  lia.
Qed.

Lemma quiet_iteration instant (sim sim' : Simulation T) (it : Iteration T) :
  (forall n s e, admits (process n s e) = []) ->
  iteration process instant sim = Some (it, sim') ->
  admitted it = [].
Proof.
  intros Hquiet. unfold iteration.
  destruct (Array.pop (filter (todo sim) (events sim))) as [event|]; [|discriminate].
  unfold call. simpl. destruct (callback event) as [|name].
  - now intros [= <- <-].
  - rewrite Hquiet. simpl. now intros [= <- <-].
Qed.

(** X5.  The loop stops.  When the processes schedule nothing, the loop of
    [runSimulation] is left, by its [break] or by a throw, after no more
    passes than there were Scheduled events in the queue. *)
Theorem run_stops (fuel : nat) (elapsed : number) (sim : Simulation T) :
  (forall n s e, admits (process n s e) = []) ->
  (countScheduled (events sim) < fuel)%nat ->
  let run := runSimulation process fuel elapsed sim in
  exit run <> OutOfFuel
  /\ (List.length (trace run) <= countScheduled (events sim))%nat.
Proof.
  intros Hquiet Hfuel.
  assert (Hloop : forall fuel instant (sim : Simulation T),
             (countScheduled (events sim) < fuel)%nat ->
             let '(its, _, ex) := loop process fuel instant sim in
             ex <> OutOfFuel
             /\ (List.length its <= countScheduled (events sim))%nat).
  { clear fuel sim Hfuel. induction fuel as [|fuel IH]; intros instant sim Hf;
      [lia|]. simpl.
    destruct (iteration process instant sim) as [[it sim1]|] eqn:E.
    - pose proof (quiet_iteration _ _ _ _ Hquiet E) as Hq.
      apply iteration_account in E. destruct E as [E1 _]. rewrite Hq in E1.
      simpl in E1. destruct (called it) as [err|p].
      + split; [discriminate|simpl; lia].
      + specialize (IH (S instant) sim1).
        destruct (loop process fuel (S instant) sim1) as [[its sim2] ex].
        destruct IH as [I1 I2]; [lia|]. split; [assumption|simpl; lia].
    - split; [discriminate|simpl; lia]. }
  unfold runSimulation. specialize (Hloop fuel 0%nat sim Hfuel).
  destruct (loop process fuel 0 sim) as [[its sim1] ex]. exact Hloop.
Qed.

End RunTotals.

(** ** simulation-p.ts: how the events of a run end *)

Section RunOutcome.
Context {T : Type}.
Variable process : nat -> Simulation T -> PromiseEvent T -> SimulationP.Turn T.
Import SimulationP.

Lemma NoDup_map_eq {A B} (f : A -> B) (l : list A) (a b : A) :
  NoDup (map f l) -> In a l -> In b l -> f a = f b -> a = b.
Proof.
  induction l as [|x l IH]; simpl; [tauto|]. intros Hnd Ha Hb E.
  inversion Hnd as [|? ? Hx Hl]; subst.
  destruct Ha as [->|Ha], Hb as [->|Hb]; try reflexivity.
  - exfalso. apply Hx. rewrite E. now apply in_map.
  - exfalso. apply Hx. rewrite <- E. now apply in_map.
  - now apply IH.
Qed.

Lemma fulfilments_origin now termination (its : list (Iteration T)) h :
  In h (fulfilments (handles now termination its)) ->
  exists it p,
    In it its /\ called it = inr p
    /\ handleEvent (fun _ => now) (dispatched it) termination p
       = Promise.Fulfilled (fst h) (snd h).
Proof.
  induction its as [|it rest IH]; simpl; [tauto|].
  destruct (called it) as [err|p] eqn:Hc.
  - intros Hin. destruct (IH Hin) as (it' & p' & ? & ? & ?). exists it', p'. auto.
  - simpl.
    destruct (handleEvent _ (dispatched it) termination p) as [|n newEvent|n e] eqn:E;
      try (intros Hin; destruct (IH Hin) as (it' & p' & ? & ? & ?);
           exists it', p'; now auto).
    simpl. intros [<-|Hin].
    + exists it, p. auto.
    + destruct (IH Hin) as (it' & p' & ? & ? & ?). exists it', p'. auto.
Qed.

(** What a pass leaves in the queue.  With distinct ids among the
    dispatched events, the event of a pass stands in [sim.events], once
    every promise of the run settled, as [handleEvent] resolved it, or as
    it was dispatched when [handleEvent] did not resolve; a resolved event
    stands for every event of its id. *)
Lemma run_outcome (fuel : nat) (elapsed : number) (sim : Simulation T)
    (it : Iteration T) :
  let run := runSimulation process fuel elapsed sim in
  NoDup (map id (map dispatched (trace run))) ->
  In it (trace run) ->
  let promise :=
    simulationProcess (termination sim) (exit run) (List.length (trace run))
      {| duration := elapsed |} in
  let newEvent := settledAs (currentTime (final run)) promise it in
  In newEvent (events (final run))
  /\ (newEvent <> dispatched it ->
      forall e, In e (events (final run)) -> id e = id (dispatched it) ->
                e = newEvent).
Proof.
  unfold runSimulation.
  pose proof (loop_queue process fuel 0 sim) as Hq.
  destruct (loop process fuel 0 sim) as [[its sim1] ex]. destruct Hq as [Hq _].
  set (sim2 := match ex with
               | Break => terminate sim1 {| duration := elapsed |}
               | _ => sim1
               end).
  assert (He : events sim2 = events sim1)
    by (unfold sim2; destruct ex; try reflexivity; apply terminate_events).
  simpl. intros Hnd Hin. rewrite He.
  set (now := currentTime sim2).
  set (promise := simulationProcess (termination sim) ex (List.length its)
                    {| duration := elapsed |}).
  set (updates := Array.sort earliestFirst (fulfilments (handles now promise its))).
  assert (Hperm : Permutation updates (fulfilments (handles now promise its)))
    by apply sort_perm.
  assert (Hdistinct : NoDup (map idOf updates)).
  { apply (Permutation_NoDup (Permutation_sym (Permutation_map idOf Hperm))).
    now apply (fulfilments_distinct process). }
  unfold settle. fold updates. rewrite settle_updates by assumption.
  rewrite Forall_forall in Hq. specialize (Hq it Hin).
  assert (Hsame : forall h, In h updates -> idOf h = id (dispatched it) ->
                            exists p, called it = inr p
                                      /\ handleEvent (fun _ => now) (dispatched it)
                                           promise p
                                         = Promise.Fulfilled (fst h) (snd h)).
  { intros h Hh Hid. apply (Permutation_in _ Hperm) in Hh.
    destruct (fulfilments_origin _ _ _ _ Hh) as (it' & p' & Hin' & Hc' & Hh').
    assert (it' = it) as ->.
    { rewrite map_map in Hnd. apply (NoDup_map_eq _ _ _ _ Hnd Hin' Hin).
      rewrite <- Hid. unfold idOf. symmetry.
      apply (handleEvent_id _ _ _ _ _ _ Hh'). }
    exists p'. auto. }
  assert (Hkept : (forall h, In h updates -> idOf h <> id (dispatched it)) ->
                  updateOf updates (dispatched it) = dispatched it).
  { intros Hno. unfold updateOf. rewrite find_absent; [reflexivity|].
    intros Hi. apply in_map_iff in Hi. destruct Hi as (h & Hid & Hh).
    now apply (Hno h Hh). }
  assert (Hreplaced : forall n newEvent p,
             called it = inr p ->
             handleEvent (fun _ => now) (dispatched it) promise p
             = Promise.Fulfilled n newEvent ->
             forall x, id x = id (dispatched it) -> updateOf updates x = newEvent).
  { intros n newEvent p Hc Hh x Hx. unfold updateOf.
    assert (Hmine : In (n, newEvent) updates).
    { apply (Permutation_in _ (Permutation_sym Hperm)).
      now apply (fulfilments_has process _ _ _ it p). }
    pose proof (find_unique process updates _ Hdistinct Hmine) as Hf.
    unfold idOf in Hf. simpl in Hf.
    rewrite (handleEvent_id _ _ _ _ _ _ Hh) in Hf. rewrite Hx. now rewrite Hf. }
  unfold settledAs. destruct (called it) as [err|p] eqn:Hc.
  - split; [|tauto]. apply in_map_iff. exists (dispatched it). split; [|assumption].
    apply Hkept. intros h Hh Hid. destruct (Hsame h Hh Hid) as (p & Hp & _).
    discriminate.
  - destruct (handleEvent (fun _ => now) (dispatched it) promise p)
      as [|n newEvent|n e] eqn:Hh.
    + split; [|tauto]. apply in_map_iff. exists (dispatched it).
      split; [|assumption]. apply Hkept. intros h Hh' Hid.
      destruct (Hsame h Hh' Hid) as (p' & [= <-] & Hp'). congruence.
    + split.
      * apply in_map_iff. exists (dispatched it). split; [|assumption].
        now apply (Hreplaced n newEvent p).
      * intros _ e He' Hid. apply in_map_iff in He'.
        destruct He' as (x & <- & Hx). apply (Hreplaced n newEvent p); try easy.
        now rewrite updateOf_id in Hid.
    + split; [|tauto]. apply in_map_iff. exists (dispatched it).
      split; [|assumption]. apply Hkept. intros h Hh' Hid.
      destruct (Hsame h Hh' Hid) as (p' & [= <-] & Hp'). congruence.
Qed.

End RunOutcome.

Section RunEndings.
Context {T : Type}.
Variable process : nat -> Simulation T -> PromiseEvent T -> SimulationP.Turn T.
Import SimulationP.

Lemma last_cons {A} (x d : A) (l : list A) : last (x :: l) d = last l x.
Proof.
  revert x d. induction l as [|y l IH]; intros x d; [reflexivity|].
  change (last (x :: y :: l) d) with (last (y :: l) d).
  now rewrite !IH.
Qed.

Lemma loop_last_clock (fuel instant : nat) (sim : Simulation T) :
  let '(its, sim', _) := loop process fuel instant sim in
  currentTime sim' = last (map clock its) (currentTime sim).
Proof.
  revert instant sim. induction fuel as [|fuel IH]; intros instant sim; simpl;
    [reflexivity|].
  destruct (iteration process instant sim) as [[it sim1]|] eqn:E; [|reflexivity].
  apply iteration_clock in E. destruct E as (_ & Hc & _).
  destruct (called it) as [err|p]; [simpl; congruence|].
  specialize (IH (S instant) sim1).
  destruct (loop process fuel (S instant) sim1) as [[its sim2] ex].
  rewrite IH, <- Hc. change (map clock (it :: its)) with (clock it :: map clock its).
  now rewrite last_cons.
Qed.

(** The clock and the termination promise after a run. *)
Lemma run_facts (fuel : nat) (elapsed : number) (sim : Simulation T) :
  let run := runSimulation process fuel elapsed sim in
  currentTime (final run) = last (map clock (trace run)) (currentTime sim)
  /\ Forall (fun it => clock it <= currentTime (final run)
                       /\ clock it = scheduledAt (dispatched it)
                       /\ status (dispatched it) = Pending) (trace run)
  /\ stats run = termination (final run)
  /\ termination (final run)
     = match termination sim with
       | Some earlier => Some earlier
       | None =>
           match exit run with
           | Break => Some {| duration := elapsed |}
           | _ => None
           end
       end.
Proof.
  unfold runSimulation.
  pose proof (loop_clock process fuel 0 sim) as Hc.
  pose proof (loop_last_clock fuel 0 sim) as Hl.
  destruct (loop process fuel 0 sim) as [[its sim1] ex].
  destruct Hc as (_ & Ht & _ & Hall). simpl.
  assert (Hnow : currentTime (match ex with
                              | Break => terminate sim1 {| duration := elapsed |}
                              | _ => sim1
                              end) = currentTime sim1)
    by (destruct ex; try reflexivity; apply terminate_events).
  rewrite Hnow. split; [assumption|]. split.
  - revert Hall. apply Forall_impl. intros it Hit. repeat split; try tauto; lia.
  - split; [reflexivity|]. rewrite <- Ht.
    unfold terminate.
    destruct ex, (termination sim1) eqn:E; simpl; rewrite ?E; reflexivity.
Qed.

(** X7.  The final clock.  After a run, [sim.currentTime] is the due time of
    the event dispatched last, and the clock of before when the run
    dispatched nothing. *)
Theorem final_clock (fuel : nat) (elapsed : number) (sim : Simulation T) :
  let run := runSimulation process fuel elapsed sim in
  currentTime (final run)
  = last (map (fun it => scheduledAt (dispatched it)) (trace run)) (currentTime sim).
Proof.
  intros run. destruct (run_facts fuel elapsed sim) as (Hn & Hall & _).
  fold run in Hn, Hall. rewrite Hn. f_equal.
  apply map_ext_in. intros it Hit. rewrite Forall_forall in Hall.
  apply (Hall it Hit).
Qed.

(** X8.  A process that completes during the run.  When the promise of a
    dispatched process is fulfilled while the loop still runs, the event
    ends in [sim.events] as Completed with the result as its item, in place
    of every event of its id; its [finishedAt] is the final clock of the
    run, not the time of its dispatch, and is not before its
    [scheduledAt]. *)
Theorem completed_process_event (fuel : nat) (elapsed : number)
    (sim : Simulation T) (it : Iteration T) (i : nat) (result : T) :
  let run := runSimulation process fuel elapsed sim in
  termination sim = None ->
  exit run = Break ->
  NoDup (map id (map dispatched (trace run))) ->
  In it (trace run) ->
  called it = inr (Promise.Fulfilled i result) ->
  (i < List.length (trace run))%nat ->
  let newEvent := completed (currentTime (final run)) result (dispatched it) in
  In newEvent (events (final run))
  /\ (forall e, In e (events (final run)) -> id e = id (dispatched it) ->
                e = newEvent)
  /\ status newEvent = Completed
  /\ item newEvent = Some result
  /\ finishedAt newEvent = Some (currentTime (final run))
  /\ scheduledAt newEvent <= currentTime (final run).
Proof.
  intros run Hnone Hbreak Hnd Hin Hc Hi newEvent.
  destruct (run_outcome process fuel elapsed sim it Hnd Hin) as [Hthere Honly].
  destruct (run_facts fuel elapsed sim) as (_ & Hall & _).
  fold run in Hthere, Honly, Hall. rewrite Forall_forall in Hall.
  destruct (Hall it Hin) as (Hle & Hclock & Hpending).
  assert (Hs : settledAs (currentTime (final run))
                 (simulationProcess (termination sim) (exit run)
                    (List.length (trace run)) {| duration := elapsed |}) it
               = newEvent).
  { unfold settledAs. rewrite Hc, Hnone, Hbreak. unfold handleEvent, Promise.race.
    simpl. apply Nat.leb_gt in Hi. now rewrite Hi. }
  rewrite Hs in Hthere, Honly.
  split; [assumption|]. split.
  - apply Honly. intros E. apply (f_equal status) in E. simpl in E. congruence.
  - repeat split. simpl. lia.
Qed.

(** X9.  A process that fails during the run, on a simulation that is not
    yet terminated (its termination promise is pending when the run
    starts) and with distinct ids among the dispatched events.  When the
    promise of a dispatched process is rejected while the loop still runs,
    as it is when an async body schedules an event in the past,
    [handleEvent] rejects and the event stays in [sim.events] as it was
    dispatched, Pending.  (On a simulation terminated before the run the
    termination branch of the race comes first and the event ends
    Terminated.) *)
Theorem rejected_process_event (fuel : nat) (elapsed : number)
    (sim : Simulation T) (it : Iteration T) (i : nat) (reason : Error) :
  let run := runSimulation process fuel elapsed sim in
  termination sim = None ->
  NoDup (map id (map dispatched (trace run))) ->
  In it (trace run) ->
  called it = inr (Promise.Rejected i reason) ->
  (i < List.length (trace run))%nat ->
  In (dispatched it) (events (final run))
  /\ status (dispatched it) = Pending
  /\ handleEvent (fun _ => currentTime (final run)) (dispatched it)
       (simulationProcess None (exit run) (List.length (trace run))
          {| duration := elapsed |})
       (Promise.Rejected i reason)
     = Promise.Rejected i reason.
Proof.
  intros run Hnone Hnd Hin Hc Hi.
  destruct (run_outcome process fuel elapsed sim it Hnd Hin) as [Hthere _].
  destruct (run_facts fuel elapsed sim) as (_ & Hall & _).
  fold run in Hthere, Hall. rewrite Forall_forall in Hall.
  destruct (Hall it Hin) as (_ & _ & Hpending).
  assert (Hh : handleEvent (fun _ => currentTime (final run)) (dispatched it)
                 (simulationProcess None (exit run) (List.length (trace run))
                    {| duration := elapsed |})
                 (Promise.Rejected i reason)
               = Promise.Rejected i reason).
  { unfold handleEvent, Promise.race, simulationProcess.
    destruct (exit run); simpl; try reflexivity.
    apply Nat.leb_gt in Hi. now rewrite Hi. }
  unfold settledAs in Hthere. rewrite Hc, Hnone, Hh in Hthere. auto.
Qed.

(** X10.  A second run.  On a simulation whose termination promise is already
    resolved, every event that a run dispatches and handles ends as
    Terminated, whatever its process returns, and the promise returned by
    the run resolves with the statistics of the earlier run. *)
Theorem rerun_terminates_events (fuel : nat) (elapsed : number)
    (sim : Simulation T) (earlier : SimulationStats) (it : Iteration T)
    (p : Promise.t T) :
  let run := runSimulation process fuel elapsed sim in
  termination sim = Some earlier ->
  NoDup (map id (map dispatched (trace run))) ->
  In it (trace run) ->
  called it = inr p ->
  let newEvent := terminated (currentTime (final run)) (dispatched it) in
  In newEvent (events (final run))
  /\ (forall e, In e (events (final run)) -> id e = id (dispatched it) ->
                e = newEvent)
  /\ stats run = Some earlier.
Proof.
  intros run Hsome Hnd Hin Hc newEvent.
  destruct (run_outcome process fuel elapsed sim it Hnd Hin) as [Hthere Honly].
  destruct (run_facts fuel elapsed sim) as (_ & Hall & Hstats & Hterm).
  fold run in Hthere, Honly, Hall, Hstats, Hterm. rewrite Forall_forall in Hall.
  destruct (Hall it Hin) as (_ & _ & Hpending).
  assert (Hs : settledAs (currentTime (final run))
                 (simulationProcess (termination sim) (exit run)
                    (List.length (trace run)) {| duration := elapsed |}) it
               = newEvent).
  { unfold settledAs. rewrite Hc, Hsome. unfold simulationProcess.
    rewrite (handleEvent_parked (fun _ => currentTime (final run))); [reflexivity|].
    unfold parked. destruct (Promise.settledAt p); [lia|exact I]. }
  rewrite Hs in Hthere, Honly. split; [assumption|]. split.
  - apply Honly. intros E. apply (f_equal status) in E. simpl in E. congruence.
  - rewrite Hstats, Hterm, Hsome. reflexivity.
Qed.

End RunEndings.

Section RunThrows.
Context {T : Type}.
Variable process : nat -> Simulation T -> PromiseEvent T -> SimulationP.Turn T.
Import SimulationP.

Lemma admitAll_error (es : list (PromiseEvent T)) (sim : Simulation T) err :
  snd (admitAll sim es) = Some err ->
  exists e : PromiseEvent T, In e es
            /\ err = RangeError (id e) (scheduledAt e) (currentTime sim)
            /\ scheduledAt e < currentTime sim.
Proof.
  revert sim. induction es as [|e rest IH]; intros sim; simpl; [discriminate|].
  unfold admitEvent, scheduleEvent.
  destruct (scheduledAt e <? currentTime sim) eqn:E; simpl.
  - intros [= <-]. apply Z.ltb_lt in E. exists e. auto.
  - match goal with |- context [admitAll ?s rest] =>
      specialize (IH s); destruct (admitAll s rest) as [[sim'' done] failure] end.
    simpl in *. intros Hf. destruct (IH Hf) as (e' & He' & Herr & Hlt).
    exists e'. auto.
Qed.

Lemma iteration_error instant (sim sim' : Simulation T) (it : Iteration T) err :
  iteration process instant sim = Some (it, sim') ->
  called it = inl err ->
  (err = TypeError /\ callback (dispatched it) = PromiseResolve)
  \/ (exists name (e : PromiseEvent T),
        callback (dispatched it) = Process name
        /\ err = RangeError (id e) (scheduledAt e) (clock it)
        /\ scheduledAt e < clock it).
Proof.
  unfold iteration.
  destruct (Array.pop (filter (todo sim) (events sim))) as [event|]; [|discriminate].
  unfold call. simpl. destruct (callback event) as [|name] eqn:Hcb.
  - intros [= <- <-]. simpl. intros [= <-]. left. auto.
  - match goal with |- context [admitAll ?s ?l] =>
      pose proof (admitAll_error l s) as Ha;
      destruct (admitAll s l) as [[sim2 done] [failure|]] end; simpl in Ha.
    + destruct (async _); intros [= <- <-]; simpl; [discriminate|].
      intros [= <-]. right. destruct (Ha failure eq_refl) as (e & _ & He & Hlt).
      exists name, e. auto.
    + intros [= <- <-]. discriminate.
Qed.

Lemma loop_throw (fuel instant : nat) (sim : Simulation T) :
  let '(its, _, ex) := loop process fuel instant sim in
  match ex with
  | Throw err =>
      exists handled it,
        its = handled ++ [it]
        /\ Forall (fun it' => exists p, called it' = inr p) handled
        /\ called it = inl err
        /\ ((err = TypeError /\ callback (dispatched it) = PromiseResolve)
            \/ (exists name (e : PromiseEvent T),
                  callback (dispatched it) = Process name
                  /\ err = RangeError (id e) (scheduledAt e) (clock it)
                  /\ scheduledAt e < clock it))
  | _ => Forall (fun it' => exists p, called it' = inr p) its
  end.
Proof.
  revert instant sim. induction fuel as [|fuel IH]; intros instant sim; simpl;
    [constructor|].
  destruct (iteration process instant sim) as [[it sim1]|] eqn:E; [|constructor].
  destruct (called it) as [err|p] eqn:Hc.
  - exists [], it. repeat split; [constructor|assumption|].
    now apply (iteration_error _ _ _ _ _ E).
  - specialize (IH (S instant) sim1).
    destruct (loop process fuel (S instant) sim1) as [[its sim2] ex].
    destruct ex as [|err|].
    + constructor; [eexists; eassumption|assumption].
    + destruct IH as (handled & it' & -> & Hall & Hit & Hkind).
      exists (it :: handled), it'. repeat split; try assumption.
      constructor; [eexists; eassumption|assumption].
    + constructor; [eexists; eassumption|assumption].
Qed.

(** The events of a body are scheduled in their order up to the first one
    due before the clock, which [scheduleEvent] refuses. *)
Lemma admitAll_fails (es : list (PromiseEvent T)) (sim : Simulation T) :
  Exists (fun past => scheduledAt past < currentTime sim) es ->
  let '(_, done, failure) := admitAll sim es in
  exists past later,
    es = done ++ past :: later
    /\ failure = Some (RangeError (id past) (scheduledAt past) (currentTime sim))
    /\ scheduledAt past < currentTime sim
    /\ Forall (fun e => currentTime sim <= scheduledAt e) done.
Proof.
  revert sim. induction es as [|e rest IH]; intros sim Hex; simpl;
    [inversion Hex|].
  unfold admitEvent, scheduleEvent.
  destruct (scheduledAt e <? currentTime sim) eqn:E; simpl.
  - apply Z.ltb_lt in E. exists e, rest. repeat split; auto.
  - apply Z.ltb_ge in E.
    match goal with |- context [admitAll ?s rest] =>
      specialize (IH s); destruct (admitAll s rest) as [[sim'' done] failure] end.
    simpl in IH. destruct IH as (past & later & -> & Hf & Hlt & Hdone).
    + inversion Hex; subst; [lia|assumption].
    + exists past, later. repeat split; auto.
Qed.

Lemma iteration_throws instant (sim sim' : Simulation T) (it : Iteration T) :
  iteration process instant sim = Some (it, sim') ->
  exists s,
    currentTime s = clock it
    /\ match callback (dispatched it) with
       | PromiseResolve => called it = inl TypeError /\ admitted it = []
       | Process name =>
           let turn := process name s (dispatched it) in
           async turn = false ->
           Exists (fun past => scheduledAt past < clock it) (admits turn) ->
           exists past later,
             admits turn = admitted it ++ past :: later
             /\ called it
                = inl (RangeError (id past) (scheduledAt past) (clock it))
             /\ scheduledAt past < clock it
             /\ Forall (fun e => clock it <= scheduledAt e) (admitted it)
       end.
Proof.
  unfold iteration.
  destruct (Array.pop (filter (todo sim) (events sim))) as [event|]; [|discriminate].
  match goal with |- context [call process instant ?s ?e] =>
    set (sim1 := s); set (event1 := e) end.
  unfold call.
  replace (callback event1) with (callback event) by reflexivity.
  destruct (callback event) as [|name] eqn:Hcb.
  - intros [= <- <-]. exists sim1. simpl. rewrite Hcb. auto.
  - pose proof (admitAll_fails (admits (process name sim1 event1)) sim1) as Ha.
    destruct (admitAll sim1 (admits (process name sim1 event1)))
      as [[sim2 done] failure].
    exists sim1.
    assert (Hshape : it = {| dispatched := event1; clock := currentTime sim1;
                             admitted := done; called := SimulationP.called it |}).
    { destruct failure as [err|]; [destruct (async _)|];
        match goal with H : Some _ = Some _ |- _ => injection H as <- _ end;
        reflexivity. }
    rewrite Hshape. simpl. rewrite Hcb. split; [reflexivity|].
    intros Hplain Hpast. destruct (Ha Hpast) as (past & later & Hes & -> & Hlt & Hd).
    rewrite Hplain in H. injection H as <- _. simpl.
    exists past, later. auto.
Qed.

Lemma loop_passes (fuel instant : nat) (sim : Simulation T) :
  Forall (fun it => exists k s s', iteration process k s = Some (it, s'))
         (fst (fst (loop process fuel instant sim))).
Proof.
  revert instant sim. induction fuel as [|fuel IH]; intros instant sim; simpl;
    [constructor|].
  destruct (iteration process instant sim) as [[it sim1]|] eqn:E; [|constructor].
  destruct (called it) as [err|p].
  - repeat constructor. eauto.
  - specialize (IH (S instant) sim1).
    destruct (loop process fuel (S instant) sim1) as [[its sim2] ex].
    constructor; [eauto|assumption].
Qed.

(** A pass that throws is the last of the run. *)
Lemma loop_ends_at_throw (fuel instant : nat) (sim : Simulation T)
    handled (it : Iteration T) after err :
  fst (fst (loop process fuel instant sim)) = handled ++ it :: after ->
  called it = inl err ->
  after = []
  /\ Forall (fun it' => exists p, called it' = inr p) handled
  /\ snd (loop process fuel instant sim) = Throw err.
Proof.
  pose proof (loop_throw fuel instant sim) as Hl.
  destruct (loop process fuel instant sim) as [[its sim1] ex]. simpl.
  intros -> Hc.
  assert (Hnot : ~ Forall (fun it' : Iteration T => exists p, called it' = inr p)
                     (handled ++ it :: after)).
  { intros Hall. rewrite Forall_forall in Hall.
    destruct (Hall it) as [p Hp]; [apply in_or_app; right; now left|]. congruence. }
  destruct ex as [|err'|]; try contradiction.
  destruct Hl as (handled' & it' & Hits & Hall & Hc' & _).
  destruct after as [|a after].
  - apply app_inj_tail in Hits. destruct Hits as [-> ->].
    repeat split; [assumption|congruence].
  - exfalso. rewrite Forall_forall in Hall.
    destruct (Hall it) as [p Hp]; [|congruence].
    destruct (@exists_last _ (a :: after)) as (front & z & Hlast);
      [discriminate|].
    rewrite Hlast in Hits.
    replace (handled ++ it :: front ++ [z])
      with ((handled ++ it :: front) ++ [z]) in Hits
      by now rewrite <- app_assoc.
    apply app_inj_tail in Hits. destruct Hits as [<- _].
    apply in_or_app. right. now left.
Qed.

(** X11.  A throw of [handleEvent].  When a pass of the run dispatches an
    event created without a callback, the call of the default
    [Promise.resolve] throws a TypeError; when it dispatches an event whose
    process is a plain function, not async, that schedules an event due
    before the clock, the RangeError of [scheduleEvent] for the first such
    event leaves the body, after the events it scheduled before.  Either
    way the throw leaves [runSimulation]: no pass follows, the passes
    before it were handled, and [sim.terminate] is not called, so that the
    termination promise is as it was before the run. *)
Theorem throwing_pass_ends_run (fuel : nat) (elapsed : number)
    (sim : Simulation T) handled (it : Iteration T) after :
  let run := runSimulation process fuel elapsed sim in
  trace run = handled ++ it :: after ->
  (callback (dispatched it) = PromiseResolve
   \/ exists name,
        callback (dispatched it) = Process name
        /\ forall s e,
             async (process name s e) = false
             /\ Exists (fun past => scheduledAt past < currentTime s)
                       (admits (process name s e))) ->
  after = []
  /\ Forall (fun it' => exists p, called it' = inr p) handled
  /\ termination (final run) = termination sim
  /\ exists err,
       exit run = Throw err
       /\ called it = inl err
       /\ match callback (dispatched it) with
          | PromiseResolve => err = TypeError /\ admitted it = []
          | Process name =>
              exists s past later,
                currentTime s = clock it
                /\ async (process name s (dispatched it)) = false
                /\ admits (process name s (dispatched it))
                   = admitted it ++ past :: later
                /\ err = RangeError (id past) (scheduledAt past) (clock it)
                /\ scheduledAt past < clock it
                /\ Forall (fun e => clock it <= scheduledAt e) (admitted it)
          end.
Proof.
  intros run Htrace Hcause.
  assert (Hpass : exists k s s', iteration process k s = Some (it, s')).
  { pose proof (loop_passes fuel 0 sim) as Hall. rewrite Forall_forall in Hall.
    apply Hall. unfold run, runSimulation in Htrace.
    destruct (loop process fuel 0 sim) as [[its sim1] ex]. simpl in *.
    rewrite Htrace. apply in_or_app. right. now left. }
  destruct Hpass as (k & s0 & s' & Hit).
  destruct (iteration_throws _ _ _ _ Hit) as (s & Hclock & Hkind).
  assert (Herr : exists err, called it = inl err
                 /\ match callback (dispatched it) with
                    | PromiseResolve => err = TypeError /\ admitted it = []
                    | Process name =>
                        exists s past later,
                          currentTime s = clock it
                          /\ async (process name s (dispatched it)) = false
                          /\ admits (process name s (dispatched it))
                             = admitted it ++ past :: later
                          /\ err = RangeError (id past) (scheduledAt past) (clock it)
                          /\ scheduledAt past < clock it
                          /\ Forall (fun e => clock it <= scheduledAt e)
                                    (admitted it)
                    end).
  { destruct Hcause as [Hcb|(name & Hcb & Hbody)]; rewrite Hcb in Hkind |- *.
    - exists TypeError. tauto.
    - destruct (Hbody s (dispatched it)) as [Hplain Hpast].
      rewrite Hclock in Hpast.
      destruct (Hkind Hplain Hpast) as (past & later & Hes & Hc & Hlt & Hd).
      exists (RangeError (id past) (scheduledAt past) (clock it)).
      split; [assumption|]. exists s, past, later. auto 10. }
  destruct Herr as (err & Hc & Hshape).
  assert (Hend : after = []
                 /\ Forall (fun it' => exists p, called it' = inr p) handled
                 /\ exit run = Throw err).
  { pose proof (loop_ends_at_throw fuel 0 sim handled it after err) as Hl.
    unfold run, runSimulation in *.
    destruct (loop process fuel 0 sim) as [[its sim1] ex]. simpl in *.
    now apply Hl. }
  destruct Hend as (Hafter & Hhandled & Hexit).
  repeat split; try assumption.
  - destruct (run_facts process fuel elapsed sim) as (_ & _ & _ & Ht).
    fold run in Ht. rewrite Ht, Hexit. now destruct (termination sim).
  - exists err. auto.
Qed.

(** X12.  What [handleEvent] resolves with.  When its promise is fulfilled, the
    event it gives is the event it was given with a new status, Completed
    or Terminated, its [finishedAt] set and, when Completed, its item; it
    stays pending only when neither the simulation terminates nor the
    process settles, and rejects only with the reason of a rejection it
    was given. *)
Theorem handleEvent_settles (now : nat -> number) (event : PromiseEvent T)
    (termination : Promise.t SimulationStats) (p : Promise.t T) :
  (forall n newEvent,
     handleEvent now event termination p = Promise.Fulfilled n newEvent ->
     id newEvent = id event
     /\ firedAt newEvent = firedAt event
     /\ scheduledAt newEvent = scheduledAt event
     /\ callback newEvent = callback event
     /\ finishedAt newEvent = Some (now n)
     /\ ((status newEvent = Terminated /\ item newEvent = item event)
         \/ (status newEvent = Completed
             /\ exists result, p = Promise.Fulfilled n result
                               /\ item newEvent = Some result)))
  /\ (handleEvent now event termination p = Promise.Unsettled
      <-> termination = Promise.Unsettled /\ p = Promise.Unsettled)
  /\ (forall n reason,
        handleEvent now event termination p = Promise.Rejected n reason ->
        termination = Promise.Rejected n reason \/ p = Promise.Rejected n reason).
Proof.
  unfold handleEvent, Promise.race. split; [|split].
  - intros n newEvent.
    destruct termination as [|i s|i e], p as [|j v|j e']; simpl;
      try destruct (i <=? j)%nat; intros [= <- <-] || discriminate; simpl;
      repeat split; (left; now split) || (right; split; [reflexivity|eauto]).
  - destruct termination as [|i s|i e], p as [|j v|j e']; simpl;
      try destruct (i <=? j)%nat; split;
      (intros [? ?]; discriminate) || discriminate || auto.
  - intros n reason.
    destruct termination as [|i s|i e], p as [|j v|j e']; simpl;
      try destruct (i <=? j)%nat; intros [= <- <-] || discriminate; auto.
Qed.

End RunThrows.

(** ** simulation-p.ts: no event is left behind *)

Section RunCompleteness.
Context {T : Type}.
Variable process : nat -> Simulation T -> PromiseEvent T -> SimulationP.Turn T.
Import SimulationP.

Lemma admitEvent_wellQueued (sim : Simulation T) (event : PromiseEvent T) :
  wellQueued sim -> wellQueued (fst (admitEvent sim event)).
Proof.
  intros [Hs Hd]. unfold admitEvent.
  destruct (scheduleEvent sim event) as [err|queue] eqn:E; simpl; [now split|].
  pose proof (scheduleEvent_queue _ _ _ E) as (Hq & Hperm & _).
  split; [assumption|]. simpl.
  apply (Permutation_Forall (Permutation_sym Hperm)). constructor; [|assumption].
  simpl. intros _. unfold scheduleEvent in E.
  destruct (scheduledAt event <? currentTime sim) eqn:Hlt; [discriminate|].
  now apply Z.ltb_ge in Hlt.
Qed.

Lemma admitAll_wellQueued (es : list (PromiseEvent T)) (sim : Simulation T) :
  wellQueued sim -> wellQueued (fst (fst (admitAll sim es))).
Proof.
  revert sim. induction es as [|e rest IH]; intros sim Hw; simpl; [assumption|].
  pose proof (admitEvent_wellQueued sim e Hw) as Hstep.
  destruct (admitEvent sim e) as [sim' [err|]]; simpl in *; [assumption|].
  specialize (IH sim' Hstep). now destruct (admitAll sim' rest) as [[sim'' done] err].
Qed.

Lemma iteration_wellQueued instant (sim sim' : Simulation T) (it : Iteration T) :
  wellQueued sim ->
  iteration process instant sim = Some (it, sim') ->
  wellQueued sim'.
Proof.
  intros [Hs Hd]. unfold iteration.
  destruct (Array.pop (filter (todo sim) (events sim))) as [event|] eqn:E;
    [|discriminate].
  destruct (pop_filter_split _ _ _ E) as (pre & post & Hq & Hp & Hpost).
  match goal with |- context [call process instant ?s ?e] =>
    assert (Hk : wellQueued s -> wellQueued (fst (fst (call process instant s e))));
    [|destruct (call process instant s e) as [[sim2 done] result]] end.
  { intros Hw. unfold call. destruct (callback _) as [|name]; [assumption|].
    match goal with |- context [admitAll ?s ?l] =>
      pose proof (admitAll_wellQueued l s Hw) as Ha;
      destruct (admitAll s l) as [[sim3 done] [err|]] end; simpl in *;
      [|assumption].
    now destruct (async _). }
  simpl in Hk. intros [= <- <-]. apply Hk. clear Hk.
  rewrite Hq in Hs, Hd. rewrite Hq, (writeLast_split _ _ _ _ _ Hp Hpost).
  split; simpl.
  - now apply withStatus_sorted.
  - apply Forall_app in Hd. destruct Hd as [Hpre Hrest].
    inversion Hrest as [|? ? _ Hpost']; subst. apply Forall_app. split.
    + unfold latestFirstSorted in Hs. clear - Hs.
      induction pre as [|y pre IH]; simpl in *; [constructor|].
      inversion Hs as [|? ? Hl Hy]; subst. constructor; [|now apply IH].
      intros _. rewrite Forall_forall in Hy. apply Hy. apply in_or_app.
      right. now left.
    + constructor; [simpl; discriminate|].
      rewrite Forall_forall in Hpost, Hpost' |- *. intros e He Hsched.
      specialize (Hpost e He). specialize (Hpost' e He Hsched).
      assert (todo sim e = true) by (apply todo_spec; auto). congruence.
Qed.

Lemma loop_wellQueued (fuel instant : nat) (sim : Simulation T) :
  wellQueued sim ->
  let '(_, sim', ex) := loop process fuel instant sim in
  wellQueued sim' /\ (ex = Break -> countScheduled (events sim') = 0%nat).
Proof.
  revert instant sim. induction fuel as [|fuel IH]; intros instant sim Hw; simpl.
  - split; [assumption|discriminate].
  - destruct (iteration process instant sim) as [[it sim1]|] eqn:E.
    + pose proof (iteration_wellQueued _ _ _ _ Hw E) as Hw1.
      destruct (called it) as [err|p]; [split; [assumption|discriminate]|].
      specialize (IH (S instant) sim1 Hw1).
      now destruct (loop process fuel (S instant) sim1) as [[its sim2] ex].
    + split; [assumption|]. intros _. unfold iteration in E.
      destruct (Array.pop (filter (todo sim) (events sim))) as [event|] eqn:Hpop.
      * destruct (call process instant _ _) as [[sim2 done] result]. discriminate.
      * apply pop_none, filter_nil in Hpop. destruct Hw as [_ Hd].
        unfold countScheduled. rewrite filter_none; [reflexivity|].
        rewrite Forall_forall in Hpop, Hd |- *. intros e He.
        destruct (EventState_eqb (status e) Scheduled) eqn:Hs; [|reflexivity].
        assert (status e = Scheduled) by (destruct (status e); easy).
        specialize (Hpop e He). specialize (Hd e He).
        assert (todo sim e = true) by (apply todo_spec; auto). congruence.
Qed.

(** X3.  No event is left behind.  A new simulation is well queued and
    [scheduleEvent] keeps it so.  When the loop of a run on such a
    simulation breaks, no event of [sim.events] is Scheduled any more: the
    run dispatched, once each, exactly the events that were Scheduled
    before it and those the processes scheduled meanwhile. *)
Theorem every_event_dispatched :
  wellQueued (@initializeSimulation T)
  /\ (forall (sim : Simulation T) (event : PromiseEvent T),
        wellQueued sim -> wellQueued (fst (admitEvent sim event)))
  /\ (forall (fuel : nat) (elapsed : number) (sim : Simulation T),
        wellQueued sim ->
        let run := runSimulation process fuel elapsed sim in
        exit run = Break ->
        countScheduled (events (final run)) = 0%nat
        /\ List.length (trace run)
           = (countScheduled (events sim) + List.length (admittedIn (trace run)))%nat).
Proof.
  split; [split; constructor|]. split; [exact admitEvent_wellQueued|].
  intros fuel elapsed sim Hw. unfold runSimulation.
  pose proof (loop_wellQueued fuel 0 sim Hw) as Hl.
  pose proof (loop_account process fuel 0 sim) as Ha.
  destruct (loop process fuel 0 sim) as [[its sim1] ex].
  destruct Hl as [_ Hzero]. destruct Ha as [Hc _]. simpl. intros ->.
  specialize (Hzero eq_refl).
  match goal with |- context [settle ?hs ?evs] =>
    destruct (settle_account hs evs) as [_ Hle]; [apply handles_status|];
    assert (He : countScheduled evs = countScheduled (events sim1))
      by now rewrite (proj1 (terminate_events _ _))
  end.
  lia.
Qed.

End RunCompleteness.

(** ** The further properties at concrete inputs *)

Section FurtherInputs.
Import SimulationP.
Open Scope string_scope.
Open Scope list_scope.
#[local] Existing Instance Store.string_ToBoolean.

Lemma requests_then_deposits_witness :
  let run := Store.play (repeat Store.Get 3 ++ map Store.Put ["foo"; ""])
               (Store.createStore "store" []) in
  firstn 3 (snd run) = map Store.Waiting (seq 0 3)
  /\ map (Store.outcome (fst run)) (firstn 3 (snd run))
     = map Some ["foo"; ""] ++ repeat None (3 - 2)
  /\ Store.queue (Store.state (fst run)) = seq 2 (3 - 2)
  /\ Store.items (Store.state (fst run)) = [].
Proof.
  apply (requests_then_deposits "store" ["foo"; ""] 3).
  simpl. apply le_S, le_n.
Defined.

Lemma pending_promises_partition_witness :
  let store := fst (Store.play [Store.Get; Store.Get; Store.Put "foo"]
                      (Store.createStore "store" [])) in
  In 1%nat (Store.queue (Store.state store))
  /\ ~ In 1%nat (map fst (Store.resolved store)).
Proof.
  split; [left; reflexivity|].
  apply (proj2 (proj2 (pending_promises_partition "store" []
                         [Store.Get; Store.Get; Store.Put "foo"])) 1%nat).
  left. reflexivity.
Defined.

Lemma store_imbalance_witness :
  let actions := [Store.Get; Store.Put "foo"; Store.Put "bar"; Store.Put "baz"] in
  let store := fst (Store.play actions (Store.createStore "store" [])) in
  List.length (Store.items (Store.state store))
  = (putCount actions - getCount actions)%nat
  /\ List.length (Store.queue (Store.state store))
     = (getCount actions - putCount actions)%nat.
Proof.
  apply (store_imbalance "store"
           [Store.Get; Store.Put "foo"; Store.Put "bar"; Store.Put "baz"]).
  repeat constructor.
Defined.

Lemma scheduleEvent_position_witness :
  exists pre post,
    events twoProducers = pre ++ post
    /\ Array.sort latestFirst (events twoProducers ++ [withStatus Scheduled parkedConsumer])
       = pre ++ withStatus Scheduled parkedConsumer :: post
    /\ Forall (fun e => scheduledAt parkedConsumer <= scheduledAt e) pre
    /\ Forall (fun e => scheduledAt e < scheduledAt parkedConsumer) post
    /\ latestFirstSorted
         (Array.sort latestFirst
            (events twoProducers ++ [withStatus Scheduled parkedConsumer])).
Proof.
  apply (scheduleEvent_position twoProducers parkedConsumer).
  - repeat constructor; discriminate.
  - reflexivity.
Defined.

Lemma run_stops_witness :
  let run := runSimulation producers 3 0 twoProducers in
  exit run <> OutOfFuel
  /\ (List.length (trace run) <= countScheduled (events twoProducers))%nat.
Proof.
  apply (run_stops producers 3 0 twoProducers).
  - reflexivity.
  - apply le_n.
Defined.

Lemma completed_process_event_witness :
  let run := runSimulation producers 5 0 twoProducers in
  let it := passOf (withStatus Scheduled firstAdmitted) (Promise.Fulfilled 0 "foobar") in
  let newEvent := completed (currentTime (final run)) "foobar" (dispatched it) in
  In newEvent (events (final run))
  /\ (forall e, In e (events (final run)) -> id e = id (dispatched it) ->
                e = newEvent)
  /\ status newEvent = Completed
  /\ item newEvent = Some "foobar"
  /\ finishedAt newEvent = Some (currentTime (final run))
  /\ scheduledAt newEvent <= currentTime (final run).
Proof.
  apply (completed_process_event producers 5 0 twoProducers
           (passOf (withStatus Scheduled firstAdmitted) (Promise.Fulfilled 0 "foobar"))
           0 "foobar").
  - reflexivity.
  - reflexivity.
  - repeat constructor; simpl; intuition discriminate.
  - right. left. reflexivity.
  - reflexivity.
  - apply le_S, le_n.
Defined.

Lemma rejected_process_event_witness :
  let run := runSimulation tickers 10 0 (startWith 1 5) in
  let it := {| dispatched := withStatus Pending
                               (withStatus Scheduled
                                  (snd (createEvent 0 initializeSimulation 5
                                          (Some (Process 1)) None)));
               clock := 5; admitted := [];
               called := inr (Promise.Rejected 0 (RangeError "101" 4 5)) |} in
  In (dispatched it) (events (final run))
  /\ status (dispatched it) = Pending
  /\ handleEvent (fun _ => currentTime (final run)) (dispatched it)
       (simulationProcess None (exit run) (List.length (trace run))
          {| duration := 0 |})
       (Promise.Rejected 0 (RangeError "101" 4 5))
     = Promise.Rejected 0 (RangeError "101" 4 5).
Proof.
  intros run it.
  apply (rejected_process_event tickers 10 0 (startWith 1 5) it 0
           (RangeError "101" 4 5)).
  - reflexivity.
  - repeat constructor. simpl. tauto.
  - left. reflexivity.
  - reflexivity.
  - apply le_n.
Defined.

Lemma rerun_terminates_events_witness :
  let run := runSimulation producers 5 0 terminatedSimulation in
  let it := passOf (withStatus Scheduled firstAdmitted) (Promise.Fulfilled 0 "foobar") in
  let newEvent := terminated (currentTime (final run)) (dispatched it) in
  In newEvent (events (final run))
  /\ (forall e, In e (events (final run)) -> id e = id (dispatched it) ->
                e = newEvent)
  /\ stats run = Some {| duration := 7 |}.
Proof.
  apply (rerun_terminates_events producers 5 0 terminatedSimulation
           {| duration := 7 |}
           (passOf (withStatus Scheduled firstAdmitted) (Promise.Fulfilled 0 "foobar"))
           (Promise.Fulfilled 0 "foobar")).
  - reflexivity.
  - repeat constructor; simpl; intuition discriminate.
  - right. left. reflexivity.
  - reflexivity.
Defined.

Lemma throwing_pass_ends_run_witness :
  let run := runSimulation tickers 10 0 (startWith 2 5) in
  let it := {| dispatched := withStatus Pending
                               (withStatus Scheduled
                                  (snd (createEvent 0 initializeSimulation 5
                                          (Some (Process 2)) None)));
               clock := 5; admitted := [];
               called := inl (RangeError "101" 4 5) |} in
  trace run = [] ++ it :: []
  /\ Forall (fun it' : Iteration string => exists p, called it' = inr p) []
  /\ termination (final run) = termination (startWith 2 5)
  /\ exists err,
       exit run = Throw err
       /\ called it = inl err
       /\ exists s past later,
            currentTime s = clock it
            /\ async (tickers 2 s (dispatched it)) = false
            /\ admits (tickers 2 s (dispatched it)) = admitted it ++ past :: later
            /\ err = RangeError (id past) (scheduledAt past) (clock it)
            /\ scheduledAt past < clock it
            /\ Forall (fun e => clock it <= scheduledAt e) (admitted it).
Proof.
  intros run it.
  assert (Htrace : trace run = [] ++ it :: []) by reflexivity.
  split; [exact Htrace|].
  apply (throwing_pass_ends_run tickers 10 0 (startWith 2 5) [] it [] Htrace).
  right. exists 2%nat. split; [reflexivity|].
  intros s e. split; [reflexivity|]. constructor. simpl. lia.
Defined.

Lemma handleEvent_settles_witness :
  let newEvent := completed 10 "foobar" parkedConsumer in
  id newEvent = id parkedConsumer
  /\ firedAt newEvent = firedAt parkedConsumer
  /\ scheduledAt newEvent = scheduledAt parkedConsumer
  /\ callback newEvent = callback parkedConsumer
  /\ finishedAt newEvent = Some 10
  /\ ((status newEvent = Terminated /\ item newEvent = item parkedConsumer)
      \/ (status newEvent = Completed
          /\ exists result, Promise.Fulfilled 2 "foobar" = Promise.Fulfilled 2 result
                            /\ item newEvent = Some result)).
Proof.
  apply (proj1 (handleEvent_settles (fun _ => 10) parkedConsumer
                  (Promise.Fulfilled 3 {| duration := 0 |})
                  (Promise.Fulfilled 2 "foobar")) 2%nat).
  reflexivity.
Defined.

Lemma every_event_dispatched_witness :
  let run := runSimulation producers 5 0 twoProducers in
  countScheduled (events (final run)) = 0%nat
  /\ List.length (trace run)
     = (countScheduled (events twoProducers)
        + List.length (admittedIn (trace run)))%nat.
Proof.
  apply (proj2 (proj2 (every_event_dispatched producers)) 5%nat 0 twoProducers).
  - split; repeat constructor; simpl; discriminate.
  - reflexivity.
Defined.

End FurtherInputs.

(** ** simulation-p.ts: dispatch and the order of admission *)

Section AdmissionOrder.
Context {T : Type}.
Variable process : nat -> Simulation T -> PromiseEvent T -> SimulationP.Turn T.
Import SimulationP.

Lemma NoDup_split_eq {A} (a : A) (l1 l2 l1' l2' : list A) :
  NoDup (l1 ++ a :: l2) -> l1 ++ a :: l2 = l1' ++ a :: l2' ->
  l1 = l1' /\ l2 = l2'.
Proof.
  revert l1'. induction l1 as [|c l1 IH]; intros [|c' l1'] Hnd E; simpl in *.
  - injection E as E. auto.
  - injection E as -> E. inversion Hnd as [|? ? Ha _]; subst.
    exfalso. apply Ha. apply in_or_app. right. now left.
  - injection E as -> E. inversion Hnd as [|? ? Ha _]; subst.
    exfalso. apply Ha. apply in_or_app. right. now left.
  - injection E as -> E. inversion Hnd as [|? ? _ Hl]; subst.
    destruct (IH l1' Hl E) as [-> ->]. auto.
Qed.

Lemma NoDup_map_filter {A B} (g : A -> B) (p : A -> bool) (l : list A) :
  NoDup (map g l) -> NoDup (map g (filter p l)).
Proof.
  induction l as [|x l IH]; simpl; intros Hnd; [constructor|].
  inversion Hnd as [|? ? Hx Hl]; subst. destruct (p x); simpl; [|auto].
  constructor; [|auto]. intros Hin. apply Hx.
  apply in_map_iff in Hin. destruct Hin as (y & <- & Hy).
  apply filter_In in Hy. apply in_map. tauto.
Qed.

Lemma admitEvent_tracks (sim : Simulation T) (event : PromiseEvent T)
    admitted dispatchedIds :
  tracks sim admitted dispatchedIds ->
  snd (admitEvent sim event) = None ->
  ~ In (id event) (map id admitted) ->
  tracks (fst (admitEvent sim event)) (admitted ++ [event]) dispatchedIds.
Proof.
  intros (Hp & Hq & Hs & Hi). unfold admitEvent.
  destruct (scheduleEvent sim event) as [err|queue] eqn:E; simpl; [discriminate|].
  intros _ Hfresh. apply scheduleEvent_queue in E. destruct E as (_ & Hperm & Hstable).
  repeat split.
  - rewrite (Permutation_map id Hperm), map_app. simpl. rewrite Hp.
    apply Permutation_cons_append.
  - intros t. simpl. rewrite Hstable, filter_app, !map_app, Hq. f_equal.
    simpl. unfold dueAt. simpl. now destruct (scheduledAt event =? t).
  - destruct (Permutation_in _ Hperm H) as [<-|He]; [|now apply Hs].
    intros _ Hd. apply Hfresh. now apply Hi.
  - destruct (Permutation_in _ Hperm H) as [<-|He]; [reflexivity|].
    now apply Hs.
  - intros i Hd. rewrite map_app. apply in_or_app. left. now apply Hi.
Qed.

Lemma admitAll_tracks (es : list (PromiseEvent T)) (sim : Simulation T)
    admitted dispatchedIds :
  tracks sim admitted dispatchedIds ->
  let '(sim', done, _) := admitAll sim es in
  NoDup (map id (admitted ++ done)) ->
  tracks sim' (admitted ++ done) dispatchedIds.
Proof.
  revert sim admitted. induction es as [|e rest IH]; intros sim admitted Ht; simpl.
  - now rewrite app_nil_r.
  - pose proof (admitEvent_tracks sim e admitted dispatchedIds Ht) as Hstep.
    assert (Hsame : snd (admitEvent sim e) <> None -> fst (admitEvent sim e) = sim)
      by (unfold admitEvent; destruct (scheduleEvent sim e); simpl; congruence).
    destruct (admitEvent sim e) as [sim' [err|]]; simpl in *.
    + rewrite Hsame by discriminate. now rewrite app_nil_r.
    + specialize (IH sim' (admitted ++ [e])).
      destruct (admitAll sim' rest) as [[sim'' done] err]. intros Hnd.
      replace (admitted ++ e :: done) with ((admitted ++ [e]) ++ done) in *
        by now rewrite <- app_assoc.
      apply IH; [|assumption]. apply Hstep; [reflexivity|].
      rewrite !map_app in Hnd. apply NoDup_app_remove_r in Hnd.
      simpl in Hnd. apply NoDup_remove_2 in Hnd. now rewrite app_nil_r in Hnd.
Qed.

Lemma call_tracks instant (sim : Simulation T) (event : PromiseEvent T)
    admitted dispatchedIds :
  tracks sim admitted dispatchedIds ->
  let '(sim', done, _) := call process instant sim event in
  NoDup (map id (admitted ++ done)) ->
  tracks sim' (admitted ++ done) dispatchedIds.
Proof.
  intros Ht. unfold call. destruct (callback event) as [|name].
  - now rewrite app_nil_r.
  - pose proof (admitAll_tracks (admits (process name sim event)) sim _ _ Ht) as Ha.
    destruct (admitAll sim _) as [[sim' done] [err|]]; [|exact Ha].
    now destruct (async _).
Qed.

(** A pass takes the latest admitted of the earliest due events that wait,
    and leaves a queue that records the admissions and the dispatches. *)
Lemma iteration_tracks instant (sim sim' : Simulation T) (it : Iteration T)
    admitted dispatchedIds :
  wellQueued sim ->
  tracks sim admitted dispatchedIds ->
  NoDup (map id (admitted ++ SimulationP.admitted it)) ->
  iteration process instant sim = Some (it, sim') ->
  latestAdmittedFirst admitted dispatchedIds it
  /\ tracks sim' (admitted ++ SimulationP.admitted it)
            (dispatchedIds ++ [id (dispatched it)]).
Proof.
  intros [Hsorted Hdue] (Hp & Hq & Hs & Hi) Hnd. unfold iteration.
  destruct (Array.pop (filter (todo sim) (events sim))) as [x|] eqn:E;
    [|discriminate].
  destruct (pop_filter_split _ _ _ E) as (pre & post & Hevents & Htodo & Hpost).
  pose proof (proj1 (todo_spec _ _) Htodo) as [Hclock Hsched].
  assert (Hnda : NoDup (map id admitted))
    by (rewrite map_app in Hnd; now apply NoDup_app_remove_r in Hnd).
  assert (Hndq : NoDup (map id (events sim)))
    by (apply (Permutation_NoDup (Permutation_sym Hp) Hnda)).
  assert (Hwaits : forall e, In e (events sim) -> ~ In (id e) dispatchedIds ->
                             e = x \/ In e pre).
  { intros e He Hd. apply (Hs e He) in Hd.
    assert (Ht : todo sim e = true).
    { apply todo_spec. split; [|assumption]. rewrite Forall_forall in Hdue.
      now apply Hdue. }
    rewrite Hevents in He. apply in_app_or in He. destruct He as [He|[<-|He]]; auto.
    rewrite Forall_forall in Hpost. rewrite (Hpost e He) in Ht. discriminate. }
  assert (Hearliest : forall e, In e pre -> scheduledAt x <= scheduledAt e).
  { rewrite Hevents in Hsorted. unfold latestFirstSorted in Hsorted. clear - Hsorted.
    induction pre as [|y pre IH]; simpl in *; [tauto|].
    inversion Hsorted as [|? ? Hl Hy]; subst. intros e [<-|He]; [|now apply IH].
    rewrite Forall_forall in Hy. apply Hy. apply in_or_app. right. now left. }
  assert (Hthere : forall t (y : PromiseEvent T),
             In y admitted -> scheduledAt y = t ->
             exists e, In e (events sim) /\ id e = id y /\ scheduledAt e = t).
  { intros t y Hy Ht.
    assert (Hin : In (id y) (map id (filter (dueAt t) (events sim)))).
    { rewrite Hq. apply in_map. apply filter_In. split; [assumption|].
      unfold dueAt. now apply Z.eqb_eq. }
    apply in_map_iff in Hin. destruct Hin as (e & Hid & He).
    apply filter_In in He. destruct He as [He Ht'].
    exists e. repeat split; try assumption. now apply Z.eqb_eq in Ht'. }
  set (sim1 := {| currentTime := scheduledAt x;
                  events := Array.writeLast (todo sim) (withStatus Pending)
                              (events sim);
                  termination := termination sim |}).
  assert (Hmine : latestAdmittedFirst admitted dispatchedIds
                    {| dispatched := withStatus Pending x;
                       clock := scheduledAt x;
                       admitted := [];
                       called := inl TypeError |}
                  /\ tracks sim1 admitted
                            (dispatchedIds ++ [id x])).
  { split.
    - assert (Hx : In (id x) (map id (filter (dueAt (scheduledAt x)) admitted))).
      { rewrite <- Hq, Hevents, filter_app, map_app. apply in_or_app. right.
        simpl. unfold dueAt at 1. rewrite Z.eqb_refl. now left. }
      apply in_map_iff in Hx. destruct Hx as (xa & Hid & Hxa).
      apply filter_In in Hxa. destruct Hxa as [Hxa Hta].
      apply Z.eqb_eq in Hta. destruct (in_split _ _ Hxa) as (prea & posta & Hadm).
      exists prea, xa, posta. simpl. repeat split; try assumption.
      + rewrite Hid. apply Hs; [|assumption]. rewrite Hevents.
        apply in_or_app. right. now left.
      + intros y Hy Hty.
        assert (Hsame : map id (filter (dueAt (scheduledAt x)) post)
                        = map id (filter (dueAt (scheduledAt x)) posta)).
        { pose proof (Hq (scheduledAt x)) as Hqt.
          rewrite Hevents, Hadm, !filter_app, !map_app in Hqt. simpl in Hqt.
          assert (Hdx : dueAt (scheduledAt x) x = true)
            by (unfold dueAt; apply Z.eqb_refl).
          assert (Hdxa : dueAt (scheduledAt x) xa = true)
            by (unfold dueAt; now apply Z.eqb_eq).
          rewrite Hdx, Hdxa in Hqt. simpl in Hqt. rewrite Hid in Hqt.
          apply NoDup_split_eq in Hqt; [tauto|].
          pose proof (NoDup_map_filter id (dueAt (scheduledAt x)) _ Hndq) as Hn.
          rewrite Hevents, filter_app, map_app in Hn. simpl in Hn.
          now rewrite Hdx in Hn. }
        assert (Hin : In (id y) (map id (filter (dueAt (scheduledAt x)) post))).
        { rewrite Hsame. apply in_map. apply filter_In. split; [assumption|].
          unfold dueAt. now apply Z.eqb_eq. }
        apply in_map_iff in Hin. destruct Hin as (e & <- & He).
        apply filter_In in He. destruct He as [He _].
        destruct (in_dec string_dec (id e) dispatchedIds) as [Hd|Hd]; [assumption|].
        exfalso.
        assert (Hq' : In e (events sim))
          by (rewrite Hevents; apply in_or_app; right; now right).
        destruct (Hwaits e Hq' Hd) as [->|Hpre].
        * rewrite Hevents in Hndq. rewrite map_app in Hndq. simpl in Hndq.
          apply NoDup_remove_2 in Hndq. apply Hndq. apply in_or_app. right.
          now apply in_map.
        * rewrite Hevents in Hndq. rewrite map_app in Hndq.
          apply NoDup_remove_1 in Hndq.
          assert (Hpre' : In (id e) (map id pre)) by now apply in_map.
          assert (Hpost' : In (id e) (map id post)) by now apply in_map.
          clear - Hndq Hpre' Hpost'. induction (map id pre) as [|c l IH];
            simpl in *; [tauto|].
          inversion Hndq as [|? ? Hc Hl]; subst. destruct Hpre' as [->|Hpre'].
          -- apply Hc. apply in_or_app. now right.
          -- now apply IH.
      + intros y Hy Hd.
        destruct (Hthere (scheduledAt y) y Hy eq_refl) as (e & He & Hide & Hte).
        rewrite <- Hide in Hd. rewrite <- Hte.
        destruct (Hwaits e He Hd) as [->|Hpre]; [lia|now apply Hearliest].
    - unfold sim1. unfold tracks. simpl.
      rewrite Hevents, (writeLast_split _ _ _ _ _ Htodo Hpost).
      rewrite Hevents in Hp, Hq, Hs, Hndq. repeat split.
      + rewrite map_app in *. exact Hp.
      + intros t. rewrite <- Hq, !filter_app, !map_app. simpl.
        replace (dueAt t (withStatus Pending x)) with (dueAt t x) by reflexivity.
        now destruct (dueAt t x).
      + intros Hst Hd. apply in_app_or in Hd. destruct Hd as [Hd|[Hd|[]]].
        * apply in_app_or in H. destruct H as [H|[<-|H]].
          -- apply (Hs e); [apply in_or_app; now left|assumption|assumption].
          -- discriminate.
          -- apply (Hs e); [apply in_or_app; right; now right|assumption|assumption].
        * apply in_app_or in H. rewrite map_app in Hndq. simpl in Hndq.
          apply NoDup_remove_2 in Hndq. destruct H as [H|[<-|H]].
          -- apply Hndq. rewrite Hd. apply in_or_app. left. now apply in_map.
          -- discriminate.
          -- apply Hndq. rewrite Hd. apply in_or_app. right. now apply in_map.
      + intros Hd. apply in_app_or in H. destruct H as [H|[<-|H]].
        * apply (Hs e); [apply in_or_app; now left|].
          intros Hd'. apply Hd. apply in_or_app. now left.
        * exfalso. apply Hd. apply in_or_app. right. now left.
        * apply (Hs e); [apply in_or_app; right; now right|].
          intros Hd'. apply Hd. apply in_or_app. now left.
      + intros i Hin. apply in_app_or in Hin. destruct Hin as [Hin|[<-|[]]].
        * now apply Hi.
        * apply (Permutation_in _ Hp). apply in_map.
          apply in_or_app. right. now left. }
  destruct Hmine as [Hrule Htracks1].
  pose proof (call_tracks instant sim1 (withStatus Pending x) admitted
                (dispatchedIds ++ [id x]) Htracks1) as Hc.
  fold sim1.
  destruct (call process instant sim1 (withStatus Pending x))
    as [[sim2 done] result].
  intros [= <- <-]. simpl in *. split; [|now apply Hc].
  destruct Hrule as (prea & xa & posta & H1 & H2 & H3 & H4 & H5 & H6).
  exists prea, xa, posta. simpl. repeat (split; [assumption|]). assumption.
Qed.

(** Over the passes of the loop: every pass takes, of the events admitted
    before it and not yet dispatched, the latest admitted of the earliest
    due. *)
Lemma loop_tracks (fuel instant : nat) (sim : Simulation T)
    admitted dispatchedIds :
  wellQueued sim ->
  tracks sim admitted dispatchedIds ->
  let '(its, _, _) := loop process fuel instant sim in
  NoDup (map id (admitted ++ admittedIn its)) ->
  forall before it after,
    its = before ++ it :: after ->
    latestAdmittedFirst (admitted ++ admittedIn before)
      (dispatchedIds ++ map id (map dispatched before)) it.
Proof.
  revert instant sim admitted dispatchedIds.
  induction fuel as [|fuel IH]; intros instant sim admitted dispatchedIds Hw Ht;
    simpl.
  - intros _ [|? ?] it after; discriminate.
  - destruct (iteration process instant sim) as [[it sim1]|] eqn:E;
      [|intros _ [|? ?] ? ?; discriminate].
    pose proof (iteration_wellQueued process _ _ _ _ Hw E) as Hw1.
    pose proof (iteration_tracks instant sim sim1 it admitted dispatchedIds Hw Ht)
      as Hstep.
    destruct (called it) as [err|p].
    + unfold admittedIn. simpl. rewrite app_nil_r. intros Hnd before it0 after Hits.
      destruct before as [|b before]; simpl in Hits.
      * injection Hits as <- _. simpl. rewrite !app_nil_r. now apply Hstep.
      * injection Hits as _ Hits. now destruct before.
    + specialize (IH (S instant) sim1 (admitted ++ SimulationP.admitted it)
                    (dispatchedIds ++ [id (dispatched it)]) Hw1).
      destruct (loop process fuel (S instant) sim1) as [[its sim2] ex].
      unfold admittedIn in *. simpl. intros Hnd.
      assert (Hnd1 : NoDup (map id (admitted ++ SimulationP.admitted it))).
      { rewrite app_assoc, map_app in Hnd. now apply NoDup_app_remove_r in Hnd. }
      destruct (Hstep Hnd1 E) as [Hrule Ht1].
      intros before it0 after Hits. destruct before as [|b before]; simpl in Hits.
      * injection Hits as <- _. simpl. rewrite !app_nil_r. exact Hrule.
      * injection Hits as <- Hits. simpl.
        rewrite app_assoc.
        replace (dispatchedIds ++ id (dispatched it) :: map id (map dispatched before))
          with ((dispatchedIds ++ [id (dispatched it)])
                  ++ map id (map dispatched before))
          by now rewrite <- app_assoc.
        apply (IH Ht1) with (after := after); [|assumption].
        now rewrite <- app_assoc.
Qed.

(** A new simulation and the events scheduled into it one after the other. *)
Lemma admitAll_initial (es : list (PromiseEvent T)) :
  let '(sim, done, _) := admitAll initializeSimulation es in
  NoDup (map id done) -> wellQueued sim /\ tracks sim done [].
Proof.
  pose proof (admitAll_wellQueued es (@initializeSimulation T)) as Hw.
  pose proof (admitAll_tracks es (@initializeSimulation T) [] []) as Ht.
  destruct (admitAll initializeSimulation es) as [[sim done] err].
  simpl in *. intros Hnd. split.
  - apply Hw. split; constructor.
  - apply Ht; [|assumption]. repeat split; simpl; try tauto.
    + constructor.
    + intros i [].
Qed.

End AdmissionOrder.

Section DispatchOrder.
Context {T : Type}.
Variable process : nat -> Simulation T -> PromiseEvent T -> SimulationP.Turn T.
Import SimulationP.

Lemma withStatus_latestFirst s (a b : PromiseEvent T) :
  latestFirst (withStatus s a) (withStatus s b) = latestFirst a b.
Proof. reflexivity. Qed.

(** C1, as the code has it.  Events are dispatched in an order that never
    goes back in [scheduledAt].  At equal times the later admission goes
    first, and this is a rule of each pass, not of the run as a whole:
    [scheduleEvent] keeps the queue latest first and puts an event behind
    the queued events due at the same time, and a pass takes the last
    event of the queue that is Scheduled and due.  So, in a run of a
    simulation that was new when its first events were scheduled, and with
    processes that may schedule events of their own, every pass dispatches,
    of the events admitted before it and not yet dispatched, one with the
    least [scheduledAt], and of these the one admitted last (the ids of
    the admitted events being distinct, as [createEvent] makes them).  An
    event that a process schedules for the time of the clock is therefore
    dispatched before the events admitted earlier for that time that still
    wait.  When the processes schedule nothing, the events of the batch
    are dispatched in the reverse of the queue, and those due at any one
    time in the reverse of their admission. *)
Theorem dispatch_order :
  (forall (fuel : nat) (elapsed : number) (sim : Simulation T),
     StronglySorted Z.le
       (map (fun it => scheduledAt (dispatched it))
            (trace (runSimulation process fuel elapsed sim))))
  /\ (forall (sim : Simulation T) (event : PromiseEvent T) queue,
        scheduleEvent sim event = inr queue ->
        latestFirstSorted queue
        /\ forall t, filter (dueAt t) queue
                     = filter (dueAt t) (events sim)
                       ++ filter (dueAt t) [withStatus Scheduled event])
  /\ (forall instant (sim sim' : Simulation T) (it : Iteration T),
        iteration process instant sim = Some (it, sim') ->
        exists pre event post,
          events sim = pre ++ event :: post
          /\ dispatched it = withStatus Pending event
          /\ todo sim event = true
          /\ Forall (fun e => todo sim e = false) post
          /\ (latestFirstSorted (events sim) ->
              Forall (fun e => scheduledAt event <= scheduledAt e) pre
              /\ latestFirstSorted (events sim')))
  /\ (forall (es : list (PromiseEvent T)) (fuel : nat) (elapsed : number),
        Forall (fun e => 0 <= scheduledAt e /\ exists n, callback e = Process n) es ->
        (forall n s e, admits (process n s e) = []) ->
        (List.length es < fuel)%nat ->
        let '(sim, done, err) := admitAll initializeSimulation es in
        let run := runSimulation process fuel elapsed sim in
        done = es /\ err = None
        /\ events sim = Array.sort latestFirst (map (withStatus Scheduled) es)
        /\ exit run = Break
        /\ map id (map dispatched (trace run))
           = rev (map id (Array.sort latestFirst es))
        /\ forall t,
             map id (filter (dueAt t) (map dispatched (trace run)))
             = rev (map id (filter (dueAt t) es)))
  /\ (forall (es : list (PromiseEvent T)) (fuel : nat) (elapsed : number),
        let '(sim, done, _) := admitAll initializeSimulation es in
        let run := runSimulation process fuel elapsed sim in
        NoDup (map id (done ++ admittedIn (trace run))) ->
        forall before it after,
          trace run = before ++ it :: after ->
          latestAdmittedFirst (done ++ admittedIn before)
            (map id (map dispatched before)) it).
Proof.
  split.
  - intros fuel elapsed sim. unfold runSimulation.
    pose proof (loop_clock process fuel 0 sim) as Hl.
    destruct (loop process fuel 0 sim) as [[its sim1] exit].
    destruct Hl as (_ & _ & Hs & Hall). simpl.
    replace (map (fun it => scheduledAt (dispatched it)) its) with (map clock its);
      [assumption|].
    apply map_ext_in. intros it Hit. rewrite Forall_forall in Hall.
    apply (Hall it Hit).
  - split.
    { intros sim event queue E. apply scheduleEvent_queue in E. tauto. }
    split; [exact (iteration_selects process)|].
    split.
    2:{ intros es fuel elapsed.
        pose proof (admitAll_initial es) as Hinit.
        destruct (admitAll initializeSimulation es) as [[sim done] err].
        unfold runSimulation.
        pose proof (loop_tracks process fuel 0 sim done []) as Hl.
        destruct (loop process fuel 0 sim) as [[its sim1] ex]. simpl.
        intros Hnd. apply Hl; try assumption.
        - apply Hinit. rewrite map_app in Hnd. now apply NoDup_app_remove_r in Hnd.
        - apply Hinit. rewrite map_app in Hnd. now apply NoDup_app_remove_r in Hnd. }
    intros es fuel elapsed Hes Hquiet Hfuel.
    rewrite (admitAll_batch es initializeSimulation []);
      [|reflexivity|revert Hes; apply Forall_impl; simpl; tauto].
    simpl. unfold runSimulation.
    set (queue := Array.sort latestFirst (map (withStatus Scheduled) es)).
    assert (Hqueue : queue = map (withStatus Scheduled) (Array.sort latestFirst es))
      by (apply sort_map; intros; apply withStatus_latestFirst).
    pose proof (loop_batch process queue Hquiet [] fuel 0%nat
                  {| currentTime := 0; events := queue; termination := None |})
      as Hl.
    destruct (loop process fuel 0 _) as [[its sim1] exit].
    destruct Hl as (H1 & H2 & H3 & H4).
    + simpl. now rewrite app_nil_r.
    + rewrite Hqueue. rewrite Forall_map. rewrite Forall_forall in Hes |- *.
      intros e He. apply (Permutation_in _ (sort_perm latestFirst es)) in He.
      destruct (Hes e He) as (? & ?). simpl. auto.
    + apply latestFirst_sorted.
    + constructor.
    + unfold queue. rewrite (Permutation_length (sort_perm _ _)), length_map.
      assumption.
    + simpl. repeat split; try assumption.
      * rewrite H1, Hqueue, map_rev, !map_map. reflexivity.
      * intros t. rewrite H1, Hqueue, filter_rev, map_rev. f_equal.
        rewrite !map_map, filter_map_swap, map_map. simpl.
        rewrite <- (latestFirst_stable t es). reflexivity.
Qed.

End DispatchOrder.

Section DispatchInputs.
Import SimulationP.
Open Scope string_scope.
Open Scope list_scope.

(** Events "1" and "2" are admitted in this order, both due at 5; the
    process of "2" schedules "3" for the time of the clock.  The run
    dispatches "2", then "3", then "1": each pass takes the latest
    admission that waits, and the order of the run is not the reverse of
    the admissions "1", "2", "3". *)
Example admission_during_the_run :
  let '(sim, done, err) := admitAll initializeSimulation [firstDue5; secondDue5] in
  let run := runSimulation spawners 5 0 sim in
  map id done = ["1"; "2"] /\ err = None
  /\ summary run
     = ([("2", 5, ["3"]); ("3", 5, []); ("1", 5, [])],
        Break,
        [("1", Completed, Some 5); ("2", Completed, Some 5);
         ("3", Completed, Some 5)]).
Proof. vm_compute. repeat split. Qed.

Lemma dispatch_order_witness :
  (let '(sim, done, err) :=
     admitAll initializeSimulation [firstAdmitted; secondAdmitted] in
   let run := runSimulation producers 5 0 sim in
   done = [firstAdmitted; secondAdmitted] /\ err = None
   /\ events sim
      = Array.sort latestFirst
          (map (withStatus Scheduled) [firstAdmitted; secondAdmitted])
   /\ exit run = Break
   /\ map id (map dispatched (trace run))
      = rev (map id (Array.sort latestFirst [firstAdmitted; secondAdmitted]))
   /\ forall t,
        map id (filter (dueAt t) (map dispatched (trace run)))
        = rev (map id (filter (dueAt t) [firstAdmitted; secondAdmitted])))
  /\ (let run :=
        runSimulation spawners 5 0
          (fst (fst (admitAll initializeSimulation [firstDue5; secondDue5]))) in
      NoDup (map id ([firstDue5; secondDue5] ++ admittedIn (trace run)))
      /\ forall before it after,
           trace run = before ++ it :: after ->
           latestAdmittedFirst ([firstDue5; secondDue5] ++ admittedIn before)
             (map id (map dispatched before)) it).
Proof.
  split.
  - apply (proj1 (proj2 (proj2 (proj2 (dispatch_order producers))))
             [firstAdmitted; secondAdmitted] 5%nat 0).
    + repeat constructor; try discriminate; exists 0%nat; reflexivity.
    + reflexivity.
    + repeat constructor.
  - assert (Hnd : NoDup
              (map id ([firstDue5; secondDue5]
                       ++ admittedIn
                            (trace (runSimulation spawners 5 0
                               (fst (fst (admitAll initializeSimulation
                                            [firstDue5; secondDue5]))))))))
      by (vm_compute; repeat constructor; simpl; intuition discriminate).
    split; [exact Hnd|].
    exact (proj2 (proj2 (proj2 (proj2 (dispatch_order spawners))))
             [firstDue5; secondDue5] 5%nat 0 Hnd).
Defined.

End DispatchInputs.
